(** * A memoized scalar computation graph (namespace [cowboys])

    Shallow embedding of [GraphNode], its operator library and the
    operator registry [FUNCTION_SET].

    - A [double] is an IEEE binary64 value: Rocq's primitive [float].
    - Nodes live on the C++ heap and are referred to by [shared_ptr]
      (inputs) and raw pointers (outputs).  The heap is a finite map from
      addresses to node records; every member function takes the address
      of [this] and threads the heap.
    - Recursion over the graph ([RecursiveInvalidateCache], [GetOutput])
      is unbounded in the source; here it is driven by fuel, and a run
      either returns, runs out of fuel, or faults (a dangling pointer, an
      out-of-range read). *)

From Stdlib Require Import Floats.PrimFloat.
From stdpp Require Import gmap list relations.

(** ** Outcomes and the heap monad *)

Inductive outcome (A : Type) : Type :=
| Ok (a : A)
| OutOfFuel
| Fault.
Arguments Ok {A} a.
Arguments OutOfFuel {A}.
Arguments Fault {A}.

(** [NodeFunction] is a pointer to a function from [const GraphNode &] to
    [double]: the address of one of the eighteen library functions. *)
Inductive NodeFunction : Set :=
| fn_Sum | fn_And | fn_AnyEq | fn_Not | fn_Gate | fn_Sin | fn_Cos
| fn_Product | fn_Exp | fn_LessThan | fn_GreaterThan | fn_Max | fn_Min
| fn_NegSum | fn_Square | fn_PosClamp | fn_NegClamp | fn_Sqrt.

Abbreviation addr := nat (only parsing).

(** The fields of [class GraphNode]; [function_pointer = None] is
    [nullptr]. *)
Record GraphNode : Set := mkGraphNode {
  inputs : list addr;
  function_pointer : option NodeFunction;
  default_output : float;
  outputs : list addr;
  cached_output : float;
  cached_output_valid : bool
}.

Abbreviation heap := (gmap nat GraphNode) (only parsing).

Definition M (A : Type) : Type := heap → outcome (A * heap).

Definition ret {A} (a : A) : M A := λ h, Ok (a, h).

Definition bind {A B} (m : M A) (k : A → M B) : M B :=
  λ h, match m h with
       | Ok (a, h') => k a h'
       | OutOfFuel => OutOfFuel
       | Fault => Fault
       end.

Definition fault {A} : M A := λ _, Fault.
Definition out_of_fuel {A} : M A := λ _, OutOfFuel.

Notation "'let*' x ':=' m 'in' k" := (bind m (λ x, k))
  (at level 10, x name, m at level 100, k at level 200).
Notation "m ';;' k" := (bind m (λ _, k))
  (at level 100, k at level 200, right associativity).

(** [*p] for a node pointer. *)
Definition deref (p : addr) : M GraphNode :=
  λ h, match h !! p with
       | Some n => Ok (n, h)
       | None => Fault
       end.

Definition store (p : addr) (n : GraphNode) : M unit :=
  λ h, Ok (tt, <[p := n]> h).

(** Field assignments. *)
Definition set_inputs (l : list addr) (n : GraphNode) : GraphNode :=
  mkGraphNode l (function_pointer n) (default_output n) (outputs n)
              (cached_output n) (cached_output_valid n).
Definition set_function_pointer (f : option NodeFunction) (n : GraphNode) : GraphNode :=
  mkGraphNode (inputs n) f (default_output n) (outputs n)
              (cached_output n) (cached_output_valid n).
Definition set_default_output (v : float) (n : GraphNode) : GraphNode :=
  mkGraphNode (inputs n) (function_pointer n) v (outputs n)
              (cached_output n) (cached_output_valid n).
Definition set_outputs (l : list addr) (n : GraphNode) : GraphNode :=
  mkGraphNode (inputs n) (function_pointer n) (default_output n) l
              (cached_output n) (cached_output_valid n).
Definition set_cached_output_valid (b : bool) (n : GraphNode) : GraphNode :=
  mkGraphNode (inputs n) (function_pointer n) (default_output n) (outputs n)
              (cached_output n) b.
(** [cached_output = result; cached_output_valid = true;] *)
Definition set_cache (result : float) (n : GraphNode) : GraphNode :=
  mkGraphNode (inputs n) (function_pointer n) (default_output n) (outputs n)
              result true.

(** ** Standard-library algorithms used by the source *)

(** Range-based [for] over a vector of pointers. *)
Fixpoint for_each {A} (l : list A) (f : A → M unit) : M unit :=
  match l with
  | [] => ret tt
  | x :: l' => f x ;; for_each l' f
  end.

(** [std::transform] with [back_inserter], the callback running in the
    heap monad, left to right. *)
Fixpoint std_transform {A B} (f : A → M B) (l : list A) : M (list B) :=
  match l with
  | [] => ret []
  | x :: l' =>
      let* y := f x in
      let* ys := std_transform f l' in
      ret (y :: ys)
  end.

(** [*std::max_element(first, last)] under [lt]: the first greatest
    element; [None] stands for dereferencing [last] on an empty range. *)
Fixpoint max_element_from {A} (lt : A → A → bool) (largest : A) (l : list A) : A :=
  match l with
  | [] => largest
  | x :: l' => max_element_from lt (if lt largest x then x else largest) l'
  end.
Definition max_element {A} (lt : A → A → bool) (l : list A) : option A :=
  match l with
  | [] => None
  | x :: l' => Some (max_element_from lt x l')
  end.

Fixpoint min_element_from {A} (lt : A → A → bool) (smallest : A) (l : list A) : A :=
  match l with
  | [] => smallest
  | x :: l' => min_element_from lt (if lt x smallest then x else smallest) l'
  end.
Definition min_element {A} (lt : A → A → bool) (l : list A) : option A :=
  match l with
  | [] => None
  | x :: l' => Some (min_element_from lt x l')
  end.

(** [std::reduce(std::execution::par, first, last, init, op)].  The
    standard leaves the grouping of the operands unspecified.  This is the
    grouping of libstdc++ (header [numeric]) on a random-access range, to
    which the parallel policy falls back when no parallel backend is built
    in: while at least four elements remain, a block of four is combined
    as [(a op b) op (c op d)] and added to the accumulator on the right;
    the remaining elements are then added one by one. *)
Fixpoint std_reduce (op : float → float → float) (init : float) (vals : list float) : float :=
  match vals with
  | a :: b :: c :: d :: rest =>
      std_reduce op (op init (op (op a b) (op c d))) rest
  | _ => fold_left op vals init
  end.

(** [std::transform_reduce(policy, first, last, init, op, f)], same
    grouping, on the transformed elements. *)
Fixpoint std_transform_reduce (init : float) (op : float → float → float)
    (f : float → float) (vals : list float) : float :=
  match vals with
  | a :: b :: c :: d :: rest =>
      std_transform_reduce (op init (op (op (f a) (f b)) (op (f c) (f d)))) op f rest
  | _ => fold_left (λ acc val, op acc (f val)) vals init
  end.

(** [grouped op l r]: [r] combines the elements of [l] with [op], each
    once and in order, under some grouping. *)
Inductive grouped (op : float → float → float) : list float → float → Prop :=
| grouped_leaf v : grouped op [v] v
| grouped_node l1 l2 a b :
    grouped op l1 a → grouped op l2 b → grouped op (l1 ++ l2) (op a b).

(** [std::any_of]. *)
Definition any_of {A} (p : A → bool) (l : list A) : bool := existsb p l.

(** [std::ranges::is_sorted(r, comp)]: no element compares before its
    predecessor. *)
Fixpoint is_sorted_from {A} (comp : A → A → bool) (first : A) (l : list A) : bool :=
  match l with
  | [] => true
  | next :: l' => if comp next first then false else is_sorted_from comp next l'
  end.
Definition is_sorted {A} (comp : A → A → bool) (l : list A) : bool :=
  match l with
  | [] => true
  | first :: l' => is_sorted_from comp first l'
  end.

(** [std::less{}], [std::greater{}], [std::max], [std::min] on doubles. *)
Definition less (a b : float) : bool := PrimFloat.ltb a b.
Definition greater (a b : float) : bool := PrimFloat.ltb b a.
Definition std_max (a b : float) : float := if PrimFloat.ltb a b then b else a.
Definition std_min (a b : float) : float := if PrimFloat.ltb b a then b else a.

(** Conversion of a [bool] result to [double]. *)
Definition double_of_bool (b : bool) : float := if b then 1%float else 0%float.

(** [<cmath>] functions that primitive floats do not provide. *)
Record libm : Set := mkLibm {
  std_sin : float → float;
  std_cos : float → float;
  std_exp : float → float
}.

(** ** GraphNode: protected members *)

(** [void AddOutput(GraphNode *node) { outputs.push_back(node); }] *)
Definition AddOutput (this node : addr) : M unit :=
  let* n := deref this in
  store this (set_outputs (outputs n ++ [node]) n).

Fixpoint RecursiveInvalidateCache (fuel : nat) (this : addr) : M unit :=
  match fuel with
  | O => out_of_fuel
  | S fuel' =>
      let* n := deref this in
      store this (set_cached_output_valid false n) ;;
      for_each (outputs n) (RecursiveInvalidateCache fuel')
  end.

(** ** GraphNode: constructors *)

Definition GraphNode_default : GraphNode :=
  mkGraphNode [] None 0%float [] 0%float false.
Definition GraphNode_of_double (default_value : float) : GraphNode :=
  mkGraphNode [] None default_value [] 0%float false.
Definition GraphNode_of_function (function : option NodeFunction) : GraphNode :=
  mkGraphNode [] function 0%float [] 0%float false.

(** [std::make_shared<GraphNode>(...)]: a fresh address holding the
    constructed node. *)
Definition make_shared (n : GraphNode) : M addr :=
  λ h, let p := fresh (dom h) in Ok (p, <[p := n]> h).

(** ** GraphNode: accessors *)

Definition GetDefaultOutput (this : addr) : M float :=
  let* n := deref this in ret (default_output n).

Definition IsCacheValid (this : addr) : M bool :=
  let* n := deref this in ret (cached_output_valid n).

(** [v[i]] / [v.at(i)] on a vector of values or pointers. *)
Definition at_index {A} (l : list A) (i : nat) : M A :=
  match l !! i with
  | Some x => ret x
  | None => fault
  end.

(** ** Evaluation

    The operators call back into [GetOutput] on the inputs; inside this
    section [GetOutput_rec] is that callback. *)
Section Operators.
Variable math : libm.
Variable GetOutput_rec : addr → M float.

Definition GetInputValues (this : addr) : M (list float) :=
  let* n := deref this in
  std_transform GetOutput_rec (inputs n).

(** [GetInputValues<N>(indices)]; the result is [std::nullopt] or the
    vector. *)
Definition GetInputValues_at (indices : list nat) (this : addr)
  : M (option (list float)) :=
  let* n := deref this in
  match max_element Nat.ltb indices with
  | None => fault
  | Some max_index =>
      if length (inputs n) <=? max_index then ret None
      else
        let* values :=
          std_transform
            (λ index, let* node := at_index (inputs n) index in GetOutput_rec node)
            indices in
        ret (Some values)
  end.

Definition Sum (node : addr) : M float :=
  let* vals := GetInputValues node in
  ret (std_reduce PrimFloat.add 0%float vals).

Definition And (node : addr) : M float :=
  let* vals := GetInputValues node in
  ret (if any_of (λ val, PrimFloat.eqb val 0%float) vals then 0%float else 1%float).

Definition AnyEq (node : addr) : M float :=
  let* vals := GetInputValues node in
  match vals with
  | [] => GetDefaultOutput node
  | v0 :: rest =>
      ret (if any_of (λ vi, PrimFloat.eqb v0 vi) rest then 1%float else 0%float)
  end.

Definition Not (node : addr) : M float :=
  let* vals := GetInputValues_at [0] node in
  match vals with
  | None => GetDefaultOutput node
  | Some vals =>
      let* v0 := at_index vals 0 in
      ret (if PrimFloat.eqb v0 0%float then 1%float else 0%float)
  end.

Definition Gate (node : addr) : M float :=
  let* vals := GetInputValues_at [0; 1] node in
  match vals with
  | None => GetDefaultOutput node
  | Some vals =>
      let* v1 := at_index vals 1 in
      if negb (PrimFloat.eqb v1 0%float) then at_index vals 0 else ret 0%float
  end.

Definition Sin (node : addr) : M float :=
  let* vals := GetInputValues node in
  ret (std_transform_reduce 0%float PrimFloat.add (std_sin math) vals).

Definition Cos (node : addr) : M float :=
  let* vals := GetInputValues node in
  ret (std_transform_reduce 0%float PrimFloat.add (std_cos math) vals).

Definition Product (node : addr) : M float :=
  let* vals := GetInputValues node in
  ret (std_reduce PrimFloat.mul 1%float vals).

Definition Exp (node : addr) : M float :=
  let* vals := GetInputValues node in
  ret (std_transform_reduce 0%float PrimFloat.add (std_exp math) vals).

Definition LessThan (node : addr) : M float :=
  let* vals := GetInputValues node in
  ret (double_of_bool (is_sorted less vals)).

Definition GreaterThan (node : addr) : M float :=
  let* vals := GetInputValues node in
  ret (double_of_bool (is_sorted greater vals)).

Definition Max (node : addr) : M float :=
  let* vals := GetInputValues node in
  match max_element PrimFloat.ltb vals with
  | None => GetDefaultOutput node
  | Some v => ret v
  end.

Definition Min (node : addr) : M float :=
  let* vals := GetInputValues node in
  match min_element PrimFloat.ltb vals with
  | None => GetDefaultOutput node
  | Some v => ret v
  end.

Definition NegSum (node : addr) : M float :=
  let* s := Sum node in ret (PrimFloat.opp s).

Definition Square (node : addr) : M float :=
  let* vals := GetInputValues node in
  ret (std_transform_reduce 0%float PrimFloat.add (λ val, PrimFloat.mul val val) vals).

Definition PosClamp (node : addr) : M float :=
  let* vals := GetInputValues node in
  ret (std_transform_reduce 0%float PrimFloat.add (λ val, std_max 0%float val) vals).

Definition NegClamp (node : addr) : M float :=
  let* vals := GetInputValues node in
  ret (std_transform_reduce 0%float PrimFloat.add (λ val, std_min 0%float val) vals).

Definition Sqrt (node : addr) : M float :=
  let* vals := GetInputValues node in
  ret (std_transform_reduce 0%float PrimFloat.add
         (λ val, PrimFloat.sqrt (std_max 0%float val)) vals).

(** Calling through a non-null function pointer. *)
Definition call (f : NodeFunction) : addr → M float :=
  match f with
  | fn_Sum => Sum | fn_And => And | fn_AnyEq => AnyEq | fn_Not => Not
  | fn_Gate => Gate | fn_Sin => Sin | fn_Cos => Cos | fn_Product => Product
  | fn_Exp => Exp | fn_LessThan => LessThan | fn_GreaterThan => GreaterThan
  | fn_Max => Max | fn_Min => Min | fn_NegSum => NegSum | fn_Square => Square
  | fn_PosClamp => PosClamp | fn_NegClamp => NegClamp | fn_Sqrt => Sqrt
  end.
End Operators.

Fixpoint GetOutput (math : libm) (fuel : nat) (this : addr) : M float :=
  match fuel with
  | O => out_of_fuel
  | S fuel' =>
      let* n := deref this in
      if cached_output_valid n then ret (cached_output n)
      else
        let* result :=
          match function_pointer n with
          | None => ret (default_output n)
          | Some f => call math (GetOutput math fuel') f this
          end in
        let* n' := deref this in
        store this (set_cache result n') ;;
        ret result
  end.

(** ** GraphNode: mutators *)

Definition SetFunctionPointer (fuel : nat) (this : addr)
    (function : option NodeFunction) : M unit :=
  let* n := deref this in
  store this (set_function_pointer function n) ;;
  RecursiveInvalidateCache fuel this.

Definition AddInput (fuel : nat) (this node : addr) : M unit :=
  let* n := deref this in
  store this (set_inputs (inputs n ++ [node]) n) ;;
  AddOutput node this ;;
  RecursiveInvalidateCache fuel this.

Definition AddInputs (fuel : nat) (this : addr) (nodes : list addr) : M unit :=
  let* n := deref this in
  store this (set_inputs (inputs n ++ nodes) n) ;;
  RecursiveInvalidateCache fuel this.

Definition SetInputs (fuel : nat) (this : addr) (nodes : list addr) : M unit :=
  let* n := deref this in
  store this (set_inputs nodes n) ;;
  RecursiveInvalidateCache fuel this.

Definition SetDefaultOutput (fuel : nat) (this : addr) (value : float) : M unit :=
  let* n := deref this in
  if negb (PrimFloat.eqb (default_output n) value) then
    store this (set_default_output value n) ;;
    RecursiveInvalidateCache fuel this
  else ret tt.

(** ** The operator registry *)

Definition FUNCTION_SET : list (option NodeFunction) :=
  [None; Some fn_Sum; Some fn_And; Some fn_AnyEq; Some fn_Not; Some fn_Gate;
   Some fn_Sin; Some fn_Cos; Some fn_Product; Some fn_Exp; Some fn_LessThan;
   Some fn_GreaterThan; Some fn_Max; Some fn_Min; Some fn_NegSum;
   Some fn_Square; Some fn_PosClamp; Some fn_NegClamp; Some fn_Sqrt].

(** ** Graph relations read off a heap *)

(** [b] is stored in [a]'s [outputs] / [inputs] vector. *)
Definition out_edge (h : heap) (a b : addr) : Prop :=
  ∃ n, h !! a = Some n ∧ b ∈ outputs n.
Definition in_edge (h : heap) (a b : addr) : Prop :=
  ∃ n, h !! a = Some n ∧ b ∈ inputs n.

(** A node after its cache flag may have been cleared. *)
Definition invalidated (n n' : GraphNode) : Prop :=
  n' = n ∨ n' = set_cached_output_valid false n.
Definition inval_le (h h' : heap) : Prop :=
  ∀ p, option_Forall2 invalidated (h !! p) (h' !! p).

(** A node after its cache may have been filled. *)
Definition cached (n n' : GraphNode) : Prop :=
  n' = n ∨ (cached_output_valid n = false ∧ ∃ v, n' = set_cache v n).
Definition cache_le (h h' : heap) : Prop :=
  ∀ p, option_Forall2 cached (h !! p) (h' !! p).

(** The memoization state of a node, as [IsCacheValid] and a cache hit
    observe it. *)
Definition cache_state (h : heap) (p : addr) : option (bool * float) :=
  (λ n, (cached_output_valid n, cached_output n)) <$> h !! p.

(** Every edge of [E] goes to an allocated node of strictly smaller rank:
    the graph is closed and acyclic. *)
Definition ranked (E : GraphNode → list addr) (rk : addr → nat) (h : heap) : Prop :=
  ∀ a n b, h !! a = Some n → b ∈ E n → is_Some (h !! b) ∧ rk b < rk a.

(** ** The mutations of a node, as one type *)

Inductive Mutation : Set :=
| MSetFunctionPointer (function : option NodeFunction)
| MAddInput (node : addr)
| MAddInputs (nodes : list addr)
| MSetInputs (nodes : list addr)
| MSetDefaultOutput (value : float).

Definition mutate (fuel : nat) (this : addr) (m : Mutation) : M unit :=
  match m with
  | MSetFunctionPointer f => SetFunctionPointer fuel this f
  | MAddInput node => AddInput fuel this node
  | MAddInputs nodes => AddInputs fuel this nodes
  | MSetInputs nodes => SetInputs fuel this nodes
  | MSetDefaultOutput v => SetDefaultOutput fuel this v
  end.

(** The mutation writes a field: everything but a [SetDefaultOutput] of a
    value that compares equal to the current default. *)
Definition value_changing (this : addr) (m : Mutation) (h : heap) : Prop :=
  match m with
  | MSetDefaultOutput v =>
      ∃ n, h !! this = Some n ∧ PrimFloat.eqb (default_output n) v = false
  | _ => True
  end.

(** The field writes of a mutation, without the invalidation that
    follows them. *)
Definition write_fields (this : addr) (m : Mutation) : M unit :=
  match m with
  | MSetFunctionPointer f =>
      let* n := deref this in store this (set_function_pointer f n)
  | MAddInput node =>
      let* n := deref this in
      store this (set_inputs (inputs n ++ [node]) n) ;;
      AddOutput node this
  | MAddInputs nodes =>
      let* n := deref this in store this (set_inputs (inputs n ++ nodes) n)
  | MSetInputs nodes =>
      let* n := deref this in store this (set_inputs nodes n)
  | MSetDefaultOutput v =>
      let* n := deref this in store this (set_default_output v n)
  end.

(** ** The operators as functions of values

    [operator_reads f ins] lists the inputs operator [f] evaluates, in
    order, on a node whose inputs are [ins]; [operator_value] is the
    result as a function of the values of those inputs and of the default
    of the node. *)
Definition operator_reads (f : NodeFunction) (ins : list addr) : list addr :=
  match f with
  | fn_Not => if length ins <=? 0 then [] else take 1 ins
  | fn_Gate => if length ins <=? 1 then [] else take 2 ins
  | _ => ins
  end.

Definition operator_value (math : libm) (f : NodeFunction) (default : float)
    (vals : list float) : float :=
  match f with
  | fn_Sum => std_reduce PrimFloat.add 0%float vals
  | fn_And =>
      if any_of (λ val, PrimFloat.eqb val 0%float) vals then 0%float else 1%float
  | fn_AnyEq =>
      match vals with
      | [] => default
      | v0 :: rest =>
          if any_of (λ vi, PrimFloat.eqb v0 vi) rest then 1%float else 0%float
      end
  | fn_Not =>
      match vals with
      | [] => default
      | v0 :: _ => if PrimFloat.eqb v0 0%float then 1%float else 0%float
      end
  | fn_Gate =>
      match vals with
      | v0 :: v1 :: _ => if negb (PrimFloat.eqb v1 0%float) then v0 else 0%float
      | _ => default
      end
  | fn_Sin => std_transform_reduce 0%float PrimFloat.add (std_sin math) vals
  | fn_Cos => std_transform_reduce 0%float PrimFloat.add (std_cos math) vals
  | fn_Product => std_reduce PrimFloat.mul 1%float vals
  | fn_Exp => std_transform_reduce 0%float PrimFloat.add (std_exp math) vals
  | fn_LessThan => double_of_bool (is_sorted less vals)
  | fn_GreaterThan => double_of_bool (is_sorted greater vals)
  | fn_Max =>
      match max_element PrimFloat.ltb vals with
      | None => default
      | Some v => v
      end
  | fn_Min =>
      match min_element PrimFloat.ltb vals with
      | None => default
      | Some v => v
      end
  | fn_NegSum => PrimFloat.opp (std_reduce PrimFloat.add 0%float vals)
  | fn_Square =>
      std_transform_reduce 0%float PrimFloat.add (λ val, PrimFloat.mul val val) vals
  | fn_PosClamp =>
      std_transform_reduce 0%float PrimFloat.add (λ val, std_max 0%float val) vals
  | fn_NegClamp =>
      std_transform_reduce 0%float PrimFloat.add (λ val, std_min 0%float val) vals
  | fn_Sqrt =>
      std_transform_reduce 0%float PrimFloat.add
        (λ val, PrimFloat.sqrt (std_max 0%float val)) vals
  end.

(** The comparison [lt] is a strict weak order on the elements of [l]. *)
Definition strict_weak_on {A} (lt : A → A → bool) (l : list A) : Prop :=
  (∀ a, a ∈ l → lt a a = false)
  ∧ (∀ a b c, a ∈ l → b ∈ l → c ∈ l →
              lt a b = true → lt b c = true → lt a c = true)
  ∧ (∀ a b c, a ∈ l → b ∈ l → c ∈ l →
              lt a b = false → lt b c = false → lt a c = false).

(** The transform of the operators that sum a function of each input. *)
Definition elementwise (math : libm) (f : NodeFunction) : option (float → float) :=
  match f with
  | fn_Sin => Some (std_sin math)
  | fn_Cos => Some (std_cos math)
  | fn_Exp => Some (std_exp math)
  | fn_Square => Some (λ val, PrimFloat.mul val val)
  | fn_PosClamp => Some (λ val, std_max 0%float val)
  | fn_NegClamp => Some (λ val, std_min 0%float val)
  | fn_Sqrt => Some (λ val, PrimFloat.sqrt (std_max 0%float val))
  | _ => None
  end.

(** The inputs a node evaluates when it is evaluated itself. *)
Definition node_reads (n : GraphNode) : list addr :=
  match function_pointer n with
  | None => []
  | Some f => operator_reads f (inputs n)
  end.

(** The value of a node from the values of the inputs it reads. *)
Definition node_value (math : libm) (n : GraphNode) (vals : list float) : float :=
  match function_pointer n with
  | None => default_output n
  | Some f => operator_value math f (default_output n) vals
  end.

(** Evaluation without any cache: the value of a node is the value of its
    operator on the values, computed in the same way, of the inputs it
    reads. *)
Fixpoint pure_output (math : libm) (fuel : nat) (h : heap) (x : addr) : option float :=
  match fuel with
  | O => None
  | S fuel' =>
      match h !! x with
      | None => None
      | Some n =>
          match mapM (pure_output math fuel' h) (node_reads n) with
          | None => None
          | Some vals => Some (node_value math n vals)
          end
      end
  end.

(** ** Cache coherence

    [registered]: every input edge has its back edge ([a] in [b]'s inputs
    implies [b] in [a]'s outputs).  [coherent]: every valid cache holds
    the value of its node on the cached values of the inputs the node
    reads, which are valid themselves. *)
Definition registered (h : heap) : Prop :=
  ∀ a b, in_edge h b a → out_edge h a b.

Definition cache_holds (h : heap) (p : addr) (v : float) : Prop :=
  ∃ m, h !! p = Some m ∧ cached_output_valid m = true ∧ cached_output m = v.

Definition coherent (math : libm) (h : heap) : Prop :=
  ∀ x n, h !! x = Some n → cached_output_valid n = true →
         ∃ vals, Forall2 (cache_holds h) (node_reads n) vals
                 ∧ cached_output n = node_value math n vals.

(** [a] is waiting for [b]: [a] has no valid cache and evaluating it
    evaluates [b]. *)
Definition pending (h : heap) (a b : addr) : Prop :=
  ∃ n, h !! a = Some n ∧ cached_output_valid n = false ∧ b ∈ node_reads n.

(** ** Calls of the public interface *)

Inductive Call : Type :=
| CNew
| CNewDouble (default_value : float)
| CNewFunction (function : option NodeFunction)
| CMutate (fuel : nat) (this : addr) (m : Mutation)
| CGetOutput (math : libm) (fuel : nat) (this : addr).

Definition run_call (c : Call) : M unit :=
  match c with
  | CNew => make_shared GraphNode_default ;; ret tt
  | CNewDouble v => make_shared (GraphNode_of_double v) ;; ret tt
  | CNewFunction f => make_shared (GraphNode_of_function f) ;; ret tt
  | CMutate fuel this m => mutate fuel this m
  | CGetOutput math fuel this => GetOutput math fuel this ;; ret tt
  end.

(** The heaps a program can build: from the empty heap, by calls that
    return. *)
Inductive api_reachable : heap → Prop :=
| reach_empty : api_reachable ∅
| reach_call h c u h' :
    api_reachable h → run_call c h = Ok (u, h') → api_reachable h'.

(** A call of a program that wires nodes with [AddInput] only ([AddInputs]
    and [SetInputs] at most with no nodes) and evaluates with the math
    library [math]. *)
Definition disciplined (math : libm) (c : Call) : Prop :=
  match c with
  | CMutate _ _ (MAddInputs (_ :: _)) => False
  | CMutate _ _ (MSetInputs (_ :: _)) => False
  | CGetOutput m _ _ => m = math
  | _ => True
  end.

(** The heaps such a program builds while it keeps the input graph closed
    and acyclic. *)
Inductive well_wired (math : libm) : heap → Prop :=
| wired_empty : well_wired math ∅
| wired_call h c u h' :
    well_wired math h → disciplined math c →
    (∃ rk, ranked inputs rk h) →
    run_call c h = Ok (u, h') → well_wired math h'.

(** A valid cache of a node without operator holds the default. *)
Definition constant_cache_ok (h : heap) : Prop :=
  ∀ p n, h !! p = Some n → cached_output_valid n = true →
         function_pointer n = None → cached_output n = default_output n.

(** ** Minimum arities of the operator catalog

    The number of inputs below which an operator falls back to the
    default of its node: [Not] reads input 0, [Gate] reads inputs 0 and 1,
    [AnyEq], [Max] and [Min] need a non-empty input list.  The other
    operators have no such bound. *)
Definition min_arity (f : NodeFunction) : option nat :=
  match f with
  | fn_Not => Some 1
  | fn_Gate => Some 2
  | fn_AnyEq | fn_Max | fn_Min => Some 1
  | _ => None
  end.

(** ** Example graphs *)

(** A stand-in for [<cmath>] in closed examples; none of them calls
    [sin], [cos] or [exp]. *)
Definition libm_identity : libm := mkLibm (λ x, x) (λ x, x) (λ x, x).

(** The heap a run leaves behind. *)
Definition heap_after {A} (m : M A) (h : heap) : heap :=
  match m h with
  | Ok (_, h') => h'
  | _ => h
  end.

(** Nodes [A] (default 2), [B] (default 5) and [C] (operator [Sum]) with
    [C->AddInput(A); C->AddInput(B)]. *)
Definition build_ABC (fuel : nat) : M (addr * addr * addr) :=
  let* A := make_shared (GraphNode_of_double 2) in
  let* B := make_shared (GraphNode_of_double 5) in
  let* C := make_shared (GraphNode_of_function (Some fn_Sum)) in
  AddInput fuel C A ;;
  AddInput fuel C B ;;
  ret (A, B, C).

(** Evaluate [C], set the default of [A] to 10, ask whether the cache of
    [C] is valid, evaluate [C] again. *)
Definition scenario (math : libm) (fuel : nat) : M (float * bool * float) :=
  let* ABC := build_ABC fuel in
  let '(A, B, C) := ABC in
  let* v1 := GetOutput math fuel C in
  SetDefaultOutput fuel A 10 ;;
  let* valid := IsCacheValid C in
  let* v2 := GetOutput math fuel C in
  ret (v1, valid, v2).

(** The same wiring through [AddInputs] in place of [AddInput]. *)
Definition build_ABC_AddInputs (fuel : nat) : M (addr * addr * addr) :=
  let* A := make_shared (GraphNode_of_double 2) in
  let* B := make_shared (GraphNode_of_double 5) in
  let* C := make_shared (GraphNode_of_function (Some fn_Sum)) in
  AddInputs fuel C [A; B] ;;
  ret (A, B, C).

(** The same wiring through [SetInputs]. *)
Definition build_ABC_SetInputs (fuel : nat) : M (addr * addr * addr) :=
  let* A := make_shared (GraphNode_of_double 2) in
  let* B := make_shared (GraphNode_of_double 5) in
  let* C := make_shared (GraphNode_of_function (Some fn_Sum)) in
  SetInputs fuel C [A; B] ;;
  ret (A, B, C).

Definition scenario_AddInputs (math : libm) (fuel : nat) : M (float * bool * float) :=
  let* ABC := build_ABC_AddInputs fuel in
  let '(A, B, C) := ABC in
  let* v1 := GetOutput math fuel C in
  SetDefaultOutput fuel A 10 ;;
  let* valid := IsCacheValid C in
  let* v2 := GetOutput math fuel C in
  ret (v1, valid, v2).

(** The heap of the scenario once [C] has been evaluated. *)
Definition heap_ABC : heap :=
  heap_after (build_ABC 2 ;; GetOutput libm_identity 2 2) ∅.

(** A node with operator [f] over fresh constant nodes holding [vals],
    wired in order with [AddInput], then evaluated. *)
Fixpoint add_constants (fuel : nat) (this : addr) (vals : list float) : M unit :=
  match vals with
  | [] => ret tt
  | v :: vals' =>
      let* c := make_shared (GraphNode_of_double v) in
      AddInput fuel this c ;;
      add_constants fuel this vals'
  end.

Definition apply_operator (math : libm) (f : NodeFunction) (default_value : float)
    (vals : list float) : M float :=
  let* p := make_shared (GraphNode_of_function (Some f)) in
  SetDefaultOutput 1 p default_value ;;
  add_constants 1 p vals ;;
  GetOutput math 2 p.

(** [C] consumed [A] once ([A] still lists [C] as an output), was then
    rewired to no inputs, and [A] was wired to consume [C]; [C] has been
    evaluated. *)
Definition build_stale (fuel : nat) : M (addr * addr) :=
  let* A := make_shared (GraphNode_of_double 2) in
  let* C := make_shared (GraphNode_of_double 5) in
  AddInput fuel C A ;;
  SetInputs fuel C [] ;;
  SetInputs fuel A [C] ;;
  GetOutput libm_identity fuel C ;;
  ret (A, C).

Definition heap_stale : heap := heap_after (build_stale 2) ∅.

(** The field writes of a mutation of [this] add at most [this] to an
    output list and leave every other field of every other node as it
    was. *)
Definition written (this a : addr) (na na' : GraphNode) : Prop :=
  (a ≠ this → inputs na' = inputs na)
  ∧ (∀ b, b ∈ outputs na' → b ∈ outputs na ∨ b = this)
  ∧ (a ≠ this → set_outputs [] na' = set_outputs [] na).

(** Executable checks of the two shape conditions, for concrete heaps. *)
Definition mirroredb (h : heap) : bool :=
  forallb (λ an, forallb (λ b, match h !! b with
                               | Some nb => bool_decide (an.1 ∈ inputs nb)
                               | None => false
                               end) (outputs an.2))
          (map_to_list h).

Definition rankedb (E : GraphNode → list addr) (rk : addr → nat) (h : heap) : bool :=
  forallb (λ an, forallb (λ b, bool_decide (is_Some (h !! b))
                               && (rk b <? rk an.1)) (E an.2))
          (map_to_list h).

(** Run a list of calls, checking before each one that the input graph is
    closed and ranked by [rk]. *)
Fixpoint wired_run (rk : addr → nat) (cs : list Call) (h : heap) : option heap :=
  match cs with
  | [] => Some h
  | c :: cs' =>
      if rankedb inputs rk h then
        match run_call c h with
        | Ok (_, h') => wired_run rk cs' h'
        | _ => None
        end
      else None
  end.

(** The scenario as a list of calls, and a ranking of its input graph. *)
Definition calls_ABC : list Call :=
  [CNewDouble 2; CNewDouble 5; CNewFunction (Some fn_Sum);
   CMutate 2 2 (MAddInput 0); CMutate 2 2 (MAddInput 1);
   CGetOutput libm_identity 2 2].

Definition rank_ABC (a : addr) : nat := if a =? 2 then 1 else 0.

(** The scenario heap after [A.SetDefaultOutput(10)]. *)
Definition heap_ABC_changed : heap :=
  heap_after (SetDefaultOutput 2 0 10) heap_ABC.

(** Two constants, at addresses 0 and 1, not wired. *)
Definition heap_AB : heap :=
  heap_after (make_shared (GraphNode_of_double 2) ;;
              make_shared (GraphNode_of_double 5)) ∅.

(** A [Sum] node over constants 1e16, 1, -1e16, 1, a [Square] node over
    constants 1e8, 1, 1, 1, an [AnyEq] node over constants 3, 5, 3 and a
    [Max] node over constants 2, 5, 3; the operator node is at address 0,
    its inputs follow in order. *)
Definition heap_Sum : heap :=
  heap_after (let* p := make_shared (GraphNode_of_function (Some fn_Sum)) in
              add_constants 1 p [10000000000000000; 1; -10000000000000000; 1]%float) ∅.

Definition heap_Square : heap :=
  heap_after (let* p := make_shared (GraphNode_of_function (Some fn_Square)) in
              add_constants 1 p [100000000; 1; 1; 1]%float) ∅.

Definition heap_AnyEq : heap :=
  heap_after (let* p := make_shared (GraphNode_of_function (Some fn_AnyEq)) in
              add_constants 1 p [3; 5; 3]%float) ∅.

Definition heap_Max : heap :=
  heap_after (let* p := make_shared (GraphNode_of_function (Some fn_Max)) in
              add_constants 1 p [2; 5; 3]%float) ∅.

(** The callback [eval], run on an input of [this] from a heap related to
    [h], keeps the relation [R] / returns and keeps it. *)
Definition eval_preserves (R : heap → heap → Prop) (eval : addr → M float)
    (h : heap) (this : addr) : Prop :=
  ∀ p hz w hz', in_edge h this p → R h hz → eval p hz = Ok (w, hz') → R hz hz'.

Definition eval_total (R : heap → heap → Prop) (eval : addr → M float)
    (h : heap) (this : addr) : Prop :=
  ∀ p hz, in_edge h this p → R h hz → ∃ w hz', eval p hz = Ok (w, hz') ∧ R hz hz'.

(** * Proofs *)

(** ** The heap monad *)

Lemma bind_Ok {A B} (m : M A) (k : A → M B) h r :
  bind m k h = Ok r ↔ ∃ a h1, m h = Ok (a, h1) ∧ k a h1 = Ok r.
Proof.
  unfold bind. split.
  - destruct (m h) as [[a h1]| |]; [eauto | done | done].
  - intros (a & h1 & -> & Hk). done.
Qed.

Lemma ret_Ok {A} (a : A) h r : ret a h = Ok r ↔ r = (a, h).
Proof. unfold ret. split; [by intros [= <-] | by intros ->]. Qed.

Lemma deref_Ok p h r : deref p h = Ok r ↔ ∃ n, h !! p = Some n ∧ r = (n, h).
Proof.
  unfold deref. destruct (h !! p) as [n|]; split.
  - intros [= <-]. eauto.
  - by intros (? & [= <-] & ->).
  - done.
  - by intros (? & ? & _).
Qed.

Lemma store_Ok p n h r : store p n h = Ok r ↔ r = (tt, <[p := n]> h).
Proof. unfold store. split; [by intros [= <-] | by intros ->]. Qed.

Lemma bind_deref {A} p (k : GraphNode → M A) h n :
  h !! p = Some n → bind (deref p) k h = k n h.
Proof. intros Hp. unfold bind, deref. by rewrite Hp. Qed.

Lemma bind_ret {A B} (a : A) (k : A → M B) h : bind (ret a) k h = k a h.
Proof. done. Qed.

Lemma bind_store {A} p n (k : unit → M A) h :
  bind (store p n) k h = k tt (<[p := n]> h).
Proof. done. Qed.

(** Inversion of a run that returned. *)
Ltac inv_run :=
  repeat match goal with
    | H : bind _ _ _ = Ok _ |- _ =>
        let a := fresh "a" in let h := fresh "h" in let Ha := fresh "Hrun" in
        apply bind_Ok in H as (a & h & Ha & H)
    | H : ret _ _ = Ok _ |- _ => apply ret_Ok in H; simplify_eq
    | H : store _ _ _ = Ok _ |- _ => apply store_Ok in H; simplify_eq
    | H : deref _ _ = Ok _ |- _ =>
        let n := fresh "n" in let Hn := fresh "Hn" in
        apply deref_Ok in H as (n & Hn & H); simplify_eq
    | H : fault _ = Ok _ |- _ => discriminate H
    | H : out_of_fuel _ = Ok _ |- _ => discriminate H
    end.

(** ** Traversals preserve a preorder on heaps *)

Section Traversals.
Context (R : heap → heap → Prop) `{!PreOrder R}.

Lemma for_each_preserves {A} (f : A → M unit) l h u h' :
  (∀ z hz hz' w, z ∈ l → R h hz → f z hz = Ok (w, hz') → R hz hz') →
  for_each l f h = Ok (u, h') → R h h'.
Proof.
  revert h. induction l as [|x l IH]; intros h Hf Hrun; simpl in Hrun.
  - inv_run. reflexivity.
  - inv_run. assert (R h h0) as Hx by (eapply Hf; [left | reflexivity | done]).
    transitivity h0; [done|]. eapply IH; [|done].
    intros z hz hz' w Hz Hhz. eapply Hf; [by right | by transitivity h0].
Qed.

Lemma for_each_elem {A} (f : A → M unit) l h u h' :
  (∀ z hz hz' w, z ∈ l → R h hz → f z hz = Ok (w, hz') → R hz hz') →
  for_each l f h = Ok (u, h') →
  ∀ z, z ∈ l → ∃ hz hz' w, R h hz ∧ f z hz = Ok (w, hz') ∧ R hz' h'.
Proof.
  revert h. induction l as [|x l IH]; intros h Hf Hrun z Hz; simpl in Hrun.
  - by apply elem_of_nil in Hz.
  - inv_run. assert (R h h0) as Hx by (eapply Hf; [left | reflexivity | done]).
    assert (∀ z hz hz' w, z ∈ l → R h0 hz → f z hz = Ok (w, hz') → R hz hz')
      as Hf'.
    { intros z' hz hz' w Hz' Hhz. eapply Hf; [by right | by transitivity h0]. }
    apply elem_of_cons in Hz as [->|Hz].
    + exists h, h0, a. split_and!; [reflexivity | done |].
      eapply for_each_preserves; done.
    + destruct (IH h0 Hf' Hrun z Hz) as (hz & hz' & w & H1 & H2 & H3).
      exists hz, hz', w. split_and!; [by transitivity h0 | done | done].
Qed.

Lemma for_each_total {A} (f : A → M unit) l h :
  (∀ z hz, z ∈ l → R h hz → ∃ hz', f z hz = Ok (tt, hz') ∧ R hz hz') →
  ∃ h', for_each l f h = Ok (tt, h') ∧ R h h'.
Proof.
  revert h. induction l as [|x l IH]; intros h Hf; simpl.
  - exists h. split; [done | reflexivity].
  - destruct (Hf x h) as (h0 & Hx & HR); [left | reflexivity |].
    destruct (IH h0) as (h' & Hl & HR').
    { intros z hz Hz Hhz. apply Hf; [by right | by transitivity h0]. }
    exists h'. split; [|by transitivity h0].
    unfold bind. by rewrite Hx.
Qed.

Lemma std_transform_preserves {A B} (f : A → M B) l h vs h' :
  (∀ z hz hz' w, z ∈ l → R h hz → f z hz = Ok (w, hz') → R hz hz') →
  std_transform f l h = Ok (vs, h') → R h h'.
Proof.
  revert h vs. induction l as [|x l IH]; intros h vs Hf Hrun; simpl in Hrun.
  - inv_run. reflexivity.
  - inv_run. assert (R h h0) as Hx by (eapply Hf; [left | reflexivity | done]).
    transitivity h0; [done|]. eapply IH; [|done].
    intros z hz hz' w Hz Hhz. eapply Hf; [by right | by transitivity h0].
Qed.

Lemma std_transform_total {A B} (f : A → M B) l h :
  (∀ z hz, z ∈ l → R h hz → ∃ w hz', f z hz = Ok (w, hz') ∧ R hz hz') →
  ∃ vs h', std_transform f l h = Ok (vs, h') ∧ R h h'.
Proof.
  revert h. induction l as [|x l IH]; intros h Hf; simpl.
  - exists [], h. split; [done | reflexivity].
  - destruct (Hf x h) as (w & h0 & Hx & HR); [left | reflexivity |].
    destruct (IH h0) as (vs & h' & Hl & HR').
    { intros z hz Hz Hhz. apply Hf; [by right | by transitivity h0]. }
    exists (w :: vs), h'. split; [|by transitivity h0].
    unfold bind. rewrite Hx, Hl. done.
Qed.
End Traversals.

(** ** Invalidation *)

#[local] Instance invalidated_preorder : PreOrder invalidated.
Proof.
  split.
  - intros n. by left.
  - intros n1 n2 n3 [->| ->] [->| ->]; [by left | by right | by right | by right].
Qed.

#[local] Instance inval_le_preorder : PreOrder inval_le.
Proof.
  split.
  - intros h p. destruct (h !! p); constructor. reflexivity.
  - intros h1 h2 h3 H12 H23 p. specialize (H12 p). specialize (H23 p).
    destruct H12; inversion H23; simplify_eq; constructor.
    etransitivity; done.
Qed.

Lemma inval_le_lookup h h' p n :
  inval_le h h' → h !! p = Some n → ∃ n', h' !! p = Some n' ∧ invalidated n n'.
Proof. intros H Hp. specialize (H p). rewrite Hp in H. inversion H. eauto. Qed.

Lemma inval_le_lookup_r h h' p n' :
  inval_le h h' → h' !! p = Some n' → ∃ n, h !! p = Some n ∧ invalidated n n'.
Proof. intros H Hp. specialize (H p). rewrite Hp in H. inversion H. eauto. Qed.

Lemma invalidated_outputs n n' : invalidated n n' → outputs n' = outputs n.
Proof. by intros [->| ->]. Qed.

Lemma invalidated_inputs n n' : invalidated n n' → inputs n' = inputs n.
Proof. by intros [->| ->]. Qed.

Lemma invalidated_invalid n n' :
  invalidated n n' → cached_output_valid n = false → cached_output_valid n' = false.
Proof. by intros [->| ->]. Qed.

Lemma inval_le_store h p n :
  h !! p = Some n → inval_le h (<[p := set_cached_output_valid false n]> h).
Proof.
  intros Hp q. destruct (decide (p = q)) as [<-|Hne].
  - rewrite lookup_insert_eq, Hp. constructor. by right.
  - rewrite lookup_insert_ne by done. destruct (h !! q); constructor. reflexivity.
Qed.

Lemma out_edge_inval_le h h' a b :
  inval_le h h' → out_edge h a b ↔ out_edge h' a b.
Proof.
  intros H. split; intros (n & Hn & Hb).
  - destruct (inval_le_lookup _ _ _ _ H Hn) as (n' & Hn' & Hi).
    exists n'. split; [done|]. by rewrite (invalidated_outputs _ _ Hi).
  - destruct (inval_le_lookup_r _ _ _ _ H Hn) as (n' & Hn' & Hi).
    exists n'. split; [done|]. by rewrite <- (invalidated_outputs _ _ Hi).
Qed.

Lemma in_edge_inval_le h h' a b :
  inval_le h h' → in_edge h a b ↔ in_edge h' a b.
Proof.
  intros H. split; intros (n & Hn & Hb).
  - destruct (inval_le_lookup _ _ _ _ H Hn) as (n' & Hn' & Hi).
    exists n'. split; [done|]. by rewrite (invalidated_inputs _ _ Hi).
  - destruct (inval_le_lookup_r _ _ _ _ H Hn) as (n' & Hn' & Hi).
    exists n'. split; [done|]. by rewrite <- (invalidated_inputs _ _ Hi).
Qed.

Lemma rtc_out_edge_inval_le h h' a b :
  inval_le h h' → rtc (out_edge h) a b ↔ rtc (out_edge h') a b.
Proof.
  intros H. split; apply rtc_subrel; intros x y Hxy;
    by apply (out_edge_inval_le h h').
Qed.

Lemma tc_in_edge_inval_le h h' a b :
  inval_le h h' → tc (in_edge h) a b ↔ tc (in_edge h') a b.
Proof.
  intros H. split; induction 1 as [x y Hxy|x y z Hxy _ IH];
    (apply (in_edge_inval_le h h') in Hxy; [|done]);
    [by apply tc_once | by eapply tc_l | by apply tc_once | by eapply tc_l].
Qed.

Lemma RecursiveInvalidateCache_inval_le fuel this h u h' :
  RecursiveInvalidateCache fuel this h = Ok (u, h') → inval_le h h'.
Proof.
  revert this h u h'. induction fuel as [|fuel IH]; intros this h u h' Hrun;
    simpl in Hrun; inv_run.
  transitivity (<[this := set_cached_output_valid false n]> h);
    [by apply inval_le_store|].
  eapply (for_each_preserves inval_le); [|done].
  intros z hz hz' w _ _. apply IH.
Qed.

(** Everything reachable along output edges ends up invalid. *)
Lemma RecursiveInvalidateCache_reach fuel this h u h' y :
  RecursiveInvalidateCache fuel this h = Ok (u, h') →
  rtc (out_edge h) this y →
  ∃ n, h' !! y = Some n ∧ cached_output_valid n = false.
Proof.
  revert this h u h' y. induction fuel as [|fuel IH]; intros this h u h' y Hrun Hy;
    simpl in Hrun; inv_run.
  pose proof (inval_le_store _ _ _ Hn) as Hst.
  set (h1 := <[this := set_cached_output_valid false n]> h) in *.
  assert (∀ z hz hz' w, z ∈ outputs n → inval_le h1 hz →
            RecursiveInvalidateCache fuel z hz = Ok (w, hz') → inval_le hz hz')
    as Hpres.
  { intros z hz hz' w _ _. apply RecursiveInvalidateCache_inval_le. }
  apply rtc_inv in Hy as [<-|(z & (n0 & Hn0 & Hz) & Hzy)].
  - assert (inval_le h1 h') as Hle by (eapply (for_each_preserves inval_le); done).
    destruct (inval_le_lookup h1 h' this (set_cached_output_valid false n) Hle)
      as (n' & Hn' & Hi); [apply lookup_insert_eq|].
    exists n'. split; [done|]. by eapply invalidated_invalid.
  - simplify_eq.
    destruct (for_each_elem inval_le _ _ _ _ _ Hpres Hrun z Hz)
      as (hz & hz' & w & Hle1 & Hz_run & Hle2).
    destruct (IH z hz w hz' y Hz_run) as (m & Hm & Hinv).
    { apply (rtc_out_edge_inval_le h hz); [by transitivity h1 | done]. }
    destruct (inval_le_lookup _ _ _ _ Hle2 Hm) as (m' & Hm' & Hi).
    exists m'. split; [done|]. by eapply invalidated_invalid.
Qed.

(** Nothing outside the output-reachable set is written. *)
Lemma RecursiveInvalidateCache_frame fuel this h u h' y :
  RecursiveInvalidateCache fuel this h = Ok (u, h') →
  ¬ rtc (out_edge h) this y →
  h' !! y = h !! y.
Proof.
  revert this h u h'. induction fuel as [|fuel IH]; intros this h u h' Hrun Hy;
    simpl in Hrun; inv_run.
  pose proof (inval_le_store _ _ _ Hn) as Hst.
  set (h1 := <[this := set_cached_output_valid false n]> h) in *.
  assert (h1 !! y = h !! y) as <-.
  { unfold h1. apply lookup_insert_ne. intros ->. apply Hy. reflexivity. }
  pose (R := λ a b : heap, inval_le a b ∧ b !! y = a !! y).
  assert (PreOrder R) as HR.
  { split.
    - intros a. split; [reflexivity | done].
    - intros a b c [? Hab] [? Hbc]. split; [by etransitivity | congruence]. }
  apply (for_each_preserves R _ _ _ _ _) in Hrun; [apply Hrun|].
  intros z hz hz' w Hz [Hle _] Hz_run. split.
  - by eapply RecursiveInvalidateCache_inval_le.
  - eapply IH; [done|]. intros Hzy. apply Hy.
    apply rtc_l with z; [by exists n|].
    apply (rtc_out_edge_inval_le h hz); [by transitivity h1 | done].
Qed.

Lemma ranked_Forall2 (Q : GraphNode → GraphNode → Prop) E rk (h h' : heap) :
  (∀ n n', Q n n' → E n' = E n) →
  (∀ p, option_Forall2 Q (h !! p) (h' !! p)) →
  ranked E rk h → ranked E rk h'.
Proof.
  intros HE Hle Hrk a n' b Ha Hb.
  pose proof (Hle a) as Hla. rewrite Ha in Hla. inversion Hla as [n ? Hi Hn|].
  symmetry in Hn. rewrite (HE _ _ Hi) in Hb.
  destruct (Hrk a n b Hn Hb) as [[m Hm] Hlt]. split; [|done].
  pose proof (Hle b) as Hlb. rewrite Hm in Hlb. by inversion Hlb.
Qed.

(** On a closed acyclic output graph the recursion returns. *)
Lemma RecursiveInvalidateCache_total rk fuel this h :
  ranked outputs rk h → is_Some (h !! this) → rk this < fuel →
  ∃ h', RecursiveInvalidateCache fuel this h = Ok (tt, h').
Proof.
  revert this h. induction fuel as [|fuel IH]; intros this h Hrk [n Hn] Hlt;
    [lia|]. simpl. rewrite (bind_deref _ _ _ _ Hn), bind_store.
  pose proof (inval_le_store _ _ _ Hn) as Hst.
  set (h1 := <[this := set_cached_output_valid false n]> h) in *.
  destruct (for_each_total inval_le (RecursiveInvalidateCache fuel) (outputs n) h1)
    as (h' & Hrun & _); [|by exists h'].
  intros z hz Hz Hle.
  assert (inval_le h hz) as Hle' by (by transitivity h1).
  destruct (Hrk this n z Hn Hz) as [[m Hm] Hzlt].
  destruct (IH z hz) as (hz' & Hz_run).
  - eapply (ranked_Forall2 invalidated); [apply invalidated_outputs | done | done].
  - destruct (inval_le_lookup _ _ _ _ Hle' Hm) as (m' & -> & _). done.
  - lia.
  - exists hz'. split; [done|]. by eapply RecursiveInvalidateCache_inval_le.
Qed.

(** ** Mutations are field writes followed by invalidation *)

Lemma mutate_write_fields fuel this m h :
  value_changing this m h →
  mutate fuel this m h =
  (write_fields this m ;; RecursiveInvalidateCache fuel this) h.
Proof.
  destruct m as [f|node|nodes|nodes|v]; simpl; intros Hch;
    unfold SetFunctionPointer, AddInput, AddInputs, SetInputs, SetDefaultOutput,
      AddOutput, bind, deref, store;
    destruct (h !! this) as [n|] eqn:Hn; try done.
  destruct Hch as (n' & [= <-] & ->). done.
Qed.

Lemma write_fields_cache_state this m h u hm y :
  write_fields this m h = Ok (u, hm) → cache_state hm y = cache_state h y.
Proof.
  unfold cache_state.
  destruct m as [f|node|nodes|nodes|v]; simpl; unfold AddOutput; intros Hrun;
    inv_run;
    repeat match goal with
      | H : <[?p := _]> _ !! ?q = Some _ |- _ =>
          rewrite lookup_insert in H; destruct (decide (p = q)); simplify_eq
      end;
    repeat (rewrite lookup_insert; case_decide; simplify_eq);
    try done;
    repeat match goal with H : _ !! _ = Some _ |- _ => rewrite H; clear H end;
    done.
Qed.

(** ** Evaluation *)

#[local] Instance cached_preorder : PreOrder cached.
Proof.
  split.
  - intros n. by left.
  - intros n1 n2 n3 [->|[H1 [v ->]]] [->|[H2 [w ->]]];
      [by left | right; eauto | right; eauto | done].
Qed.

#[local] Instance cache_le_preorder : PreOrder cache_le.
Proof.
  split.
  - intros h p. destruct (h !! p); constructor. reflexivity.
  - intros h1 h2 h3 H12 H23 p. specialize (H12 p). specialize (H23 p).
    destruct H12; inversion H23; simplify_eq; constructor.
    etransitivity; done.
Qed.

Lemma cache_le_lookup h h' p n :
  cache_le h h' → h !! p = Some n → ∃ n', h' !! p = Some n' ∧ cached n n'.
Proof. intros H Hp. specialize (H p). rewrite Hp in H. inversion H. eauto. Qed.

Lemma cached_inputs n n' : cached n n' → inputs n' = inputs n.
Proof. by intros [->|[_ [v ->]]]. Qed.

Lemma cached_valid n n' :
  cached n n' → cached_output_valid n = true → n' = n.
Proof. intros [->|[H _]]; [done | congruence]. Qed.

Lemma cache_le_valid h h' p n :
  cache_le h h' → h !! p = Some n → cached_output_valid n = true →
  h' !! p = Some n.
Proof.
  intros H Hp Hv. destruct (cache_le_lookup _ _ _ _ H Hp) as (n' & Hn' & Hc).
  by rewrite Hn', (cached_valid _ _ Hc Hv).
Qed.

Lemma at_index_Ok {A} (l : list A) i h r :
  at_index l i h = Ok r ↔ ∃ x, l !! i = Some x ∧ r = (x, h).
Proof.
  unfold at_index. destruct (l !! i) as [x|]; split.
  - intros [= <-]. eauto.
  - by intros (? & [= <-] & ->).
  - done.
  - by intros (? & ? & _).
Qed.

Lemma std_transform_length {A B} (f : A → M B) l h vs h' :
  std_transform f l h = Ok (vs, h') → length vs = length l.
Proof.
  revert h vs. induction l as [|x l IH]; intros h vs Hrun; simpl in Hrun;
    inv_run; [done|]. simpl. f_equal. eauto.
Qed.

(** [max_element] on indices is the bounds check of every index. *)
Lemma max_element_from_ge largest l i :
  i = largest ∨ i ∈ l → i ≤ max_element_from Nat.ltb largest l.
Proof.
  revert largest i. induction l as [|x l IH]; intros largest i; simpl.
  - intros [->|Hi]; [lia | by apply elem_of_nil in Hi].
  - pose proof (IH (if largest <? x then x else largest) _
                   (or_introl eq_refl)) as Hle.
    intros [->|Hi].
    + destruct (Nat.ltb_spec largest x); lia.
    + apply elem_of_cons in Hi as [->|Hi]; [|apply IH; by right].
      destruct (Nat.ltb_spec largest x); lia.
Qed.

Lemma max_element_from_elem largest l :
  max_element_from Nat.ltb largest l = largest
  ∨ max_element_from Nat.ltb largest l ∈ l.
Proof.
  revert largest. induction l as [|x l IH]; intros largest; simpl; [by left|].
  destruct (IH (if largest <? x then x else largest)) as [->|Hin].
  - destruct (largest <? x); [right; left | by left].
  - right. by right.
Qed.

Lemma max_element_index_bound indices n max_index :
  max_element Nat.ltb indices = Some max_index →
  max_index < n ↔ ∀ i, i ∈ indices → i < n.
Proof.
  destruct indices as [|i0 l]; [done|]. simpl. intros [= <-]. split.
  - intros Hlt i Hi. apply elem_of_cons in Hi.
    pose proof (max_element_from_ge i0 l i Hi). lia.
  - intros Hall. destruct (max_element_from_elem i0 l) as [->|Hin].
    + apply Hall. left.
    + apply Hall. by right.
Qed.

(** Whatever an operator does to the heap, it does through [GetOutput]
    calls on the inputs of its node. *)
Section Calls.
Context (R : heap → heap → Prop) `{!PreOrder R}.
Context (math : libm) (eval : addr → M float).



Lemma GetInputValues_preserves this h vs h' :
  eval_preserves R eval h this →
  GetInputValues eval this h = Ok (vs, h') → R h h'.
Proof.
  intros Hev Hrun. unfold GetInputValues in Hrun. inv_run.
  eapply (std_transform_preserves R); [|done].
  intros z hz hz' w Hz HR. apply Hev; [by exists n | done].
Qed.

Lemma GetInputValues_at_preserves indices this h vs h' :
  eval_preserves R eval h this →
  GetInputValues_at eval indices this h = Ok (vs, h') → R h h'.
Proof.
  intros Hev Hrun. unfold GetInputValues_at in Hrun. inv_run.
  destruct (max_element Nat.ltb indices) as [max_index|]; [|done].
  destruct (length (inputs n) <=? max_index); inv_run; [reflexivity|].
  eapply (std_transform_preserves R); [|done].
  intros z hz hz' w Hz HR Hz_run. cbv beta in Hz_run. inv_run.
  match goal with
  | H : at_index _ _ _ = Ok _ |- _ =>
      apply at_index_Ok in H as (p & Hp & [= <- <-])
  end.
  eapply Hev; [|done|done]. exists n. split; [done|].
  by eapply list_elem_of_lookup_2.
Qed.

Lemma GetDefaultOutput_Ok this h r :
  GetDefaultOutput this h = Ok r ↔
  ∃ n, h !! this = Some n ∧ r = (default_output n, h).
Proof.
  unfold GetDefaultOutput, bind, deref, ret.
  destruct (h !! this) as [n|]; split.
  - intros [= <-]. eauto.
  - by intros (? & [= <-] & ->).
  - done.
  - by intros (? & ? & _).
Qed.

Lemma call_preserves f this h v h' :
  eval_preserves R eval h this →
  call math eval f this h = Ok (v, h') → R h h'.
Proof.
  intros Hev Hrun.
  destruct f; simpl in Hrun;
    unfold Sum, And, AnyEq, Not, Gate, Sin, Cos, Product, Exp, LessThan,
      GreaterThan, Max, Min, NegSum, Square, PosClamp, NegClamp, Sqrt, Sum
      in Hrun;
    inv_run;
    repeat match goal with
      | H : GetInputValues _ _ _ = Ok _ |- _ =>
          apply GetInputValues_preserves in H; [|done]
      | H : GetInputValues_at _ _ _ _ = Ok _ |- _ =>
          apply GetInputValues_at_preserves in H; [|done]
      | H : match ?x with _ => _ end _ = Ok _ |- _ => destruct x
      | H : GetDefaultOutput _ _ = Ok _ |- _ =>
          apply GetDefaultOutput_Ok in H as (? & ? & ?); simplify_eq
      | H : at_index _ _ _ = Ok _ |- _ =>
          apply at_index_Ok in H as (? & ? & ?); simplify_eq
      | _ => progress inv_run
      end;
    done.
Qed.
End Calls.

Section CallsReturn.
Context (R : heap → heap → Prop) `{!PreOrder R}.
Context (math : libm) (eval : addr → M float).

Lemma GetInputValues_total this h n :
  h !! this = Some n → eval_total R eval h this →
  ∃ vs h', GetInputValues eval this h = Ok (vs, h') ∧ R h h'.
Proof.
  intros Hn Hev. unfold GetInputValues. rewrite (bind_deref _ _ _ _ Hn).
  apply (std_transform_total R).
  intros z hz Hz HR. apply Hev; [by exists n | done].
Qed.

Lemma GetInputValues_at_total indices this h n :
  h !! this = Some n → indices ≠ [] → eval_total R eval h this →
  ∃ r h', GetInputValues_at eval indices this h = Ok (r, h') ∧ R h h'
          ∧ ∀ vals, r = Some vals → length vals = length indices.
Proof.
  intros Hn Hne Hev. unfold GetInputValues_at.
  rewrite (bind_deref _ _ _ _ Hn). cbv beta.
  destruct (max_element Nat.ltb indices) as [max_index|] eqn:Hmax;
    [|by destruct indices].
  destruct (Nat.leb_spec (length (inputs n)) max_index) as [Hle|Hlt].
  { exists None, h. split_and!; [done | reflexivity | done]. }
  pose proof (proj1 (max_element_index_bound _ _ _ Hmax) Hlt) as Hall.
  destruct (std_transform_total R
              (λ index, let* node := at_index (inputs n) index in eval node)
              indices h) as (vs & h' & Hrun & HR).
  { intros z hz Hz HRz.
    destruct (lookup_lt_is_Some_2 (inputs n) z (Hall z Hz)) as [p Hp].
    destruct (Hev p hz) as (w & hz' & Hw & HRw); [|done|].
    { exists n. split; [done|]. by eapply list_elem_of_lookup_2. }
    exists w, hz'. split; [|done].
    unfold bind, at_index. rewrite Hp. done. }
  exists (Some vs), h'. split_and!; [|done|].
  - apply bind_Ok. by exists vs, h'.
  - intros vals [= <-]. by eapply std_transform_length.
Qed.

Lemma GetDefaultOutput_eq this h n :
  h !! this = Some n → GetDefaultOutput this h = Ok (default_output n, h).
Proof. intros Hn. apply GetDefaultOutput_Ok. eauto. Qed.

Lemma call_total f this h n :
  h !! this = Some n →
  (∀ hz, R h hz → is_Some (hz !! this)) →
  eval_total R eval h this →
  ∃ v h', call math eval f this h = Ok (v, h') ∧ R h h'.
Proof.
  intros Hn Hdom Hev.
  destruct (GetInputValues_total this h n Hn Hev) as (vs & h1 & Hvs & HR1).
  destruct (GetInputValues_at_total [0] this h n Hn) as (r1 & h2 & Hr1 & HR2 & Hl1);
    [done | done |].
  destruct (GetInputValues_at_total [0; 1] this h n Hn)
    as (r2 & h3 & Hr2 & HR3 & Hl2); [done | done |].
  destruct (Hdom h1 HR1) as [n1 Hn1]. destruct (Hdom h2 HR2) as [n2 Hn2].
  destruct (Hdom h3 HR3) as [n3 Hn3].
  destruct f; simpl;
    unfold Sum, And, AnyEq, Not, Gate, Sin, Cos, Product, Exp, LessThan,
      GreaterThan, Max, Min, NegSum, Square, PosClamp, NegClamp, Sqrt, Sum;
    unfold bind at 1; rewrite ?Hvs, ?Hr1, ?Hr2; try (unfold bind; rewrite Hvs);
    try (by eauto).
  - (* AnyEq *)
    destruct vs; [rewrite (GetDefaultOutput_eq _ _ _ Hn1)|]; eauto.
  - (* Not *)
    destruct r1 as [vals|]; [|rewrite (GetDefaultOutput_eq _ _ _ Hn2); eauto].
    specialize (Hl1 vals eq_refl). destruct vals as [|v0 [|]]; try done.
    by eauto.
  - (* Gate *)
    destruct r2 as [vals|]; [|rewrite (GetDefaultOutput_eq _ _ _ Hn3); eauto].
    specialize (Hl2 vals eq_refl). destruct vals as [|v0 [|v1 [|]]]; try done.
    unfold bind, at_index; simpl. destruct (negb _); by eauto.
  - (* Max *)
    destruct (max_element _ vs); [|rewrite (GetDefaultOutput_eq _ _ _ Hn1)]; eauto.
  - (* Min *)
    destruct (min_element _ vs); [|rewrite (GetDefaultOutput_eq _ _ _ Hn1)]; eauto.
Qed.
End CallsReturn.

Lemma cache_le_store h h0 this n n0 v :
  cache_le h h0 → h !! this = Some n → cached_output_valid n = false →
  h0 !! this = Some n0 → cache_le h (<[this := set_cache v n0]> h0).
Proof.
  intros Hle Hn Hinv Hn0 p. destruct (decide (this = p)) as [<-|Hne].
  - rewrite lookup_insert_eq, Hn. constructor. right. split; [done|].
    exists v. destruct (cache_le_lookup _ _ _ _ Hle Hn) as (n' & Hn' & Hc).
    simplify_eq. by destruct Hc as [->|[_ [w ->]]].
  - rewrite lookup_insert_ne by done. apply Hle.
Qed.

(** A run of [GetOutput] only fills caches, and leaves the cache of its
    node valid and holding the returned value. *)
Lemma GetOutput_cache_le math fuel this h v h' :
  GetOutput math fuel this h = Ok (v, h') →
  cache_le h h' ∧
  ∃ n', h' !! this = Some n' ∧ cached_output_valid n' = true
        ∧ cached_output n' = v.
Proof.
  revert this h v h'. induction fuel as [|fuel IH]; intros this h v h' Hrun;
    simpl in Hrun; inv_run.
  destruct (cached_output_valid n) eqn:Hvalid; inv_run.
  { split; [reflexivity | eauto]. }
  assert (cache_le h h0) as Hle.
  { destruct (function_pointer n) as [f|]; inv_run; [|reflexivity].
    eapply (call_preserves cache_le); [|done].
    intros p hz w hz' _ _ Hp. by apply IH in Hp as [? _]. }
  split.
  - by eapply cache_le_store.
  - eexists. split; [apply lookup_insert_eq | done].
Qed.

Lemma GetOutput_total math rk fuel this h :
  ranked inputs rk h → is_Some (h !! this) → rk this < fuel →
  ∃ v h', GetOutput math fuel this h = Ok (v, h') ∧ cache_le h h'.
Proof.
  revert this h. induction fuel as [|fuel IH]; intros this h Hrk [n Hn] Hlt;
    [lia|]. simpl. rewrite (bind_deref _ _ _ _ Hn). cbv beta.
  destruct (cached_output_valid n) eqn:Hvalid.
  { exists (cached_output n), h. split; [done | reflexivity]. }
  assert (∃ v h0, match function_pointer n with
                  | Some f => call math (GetOutput math fuel) f this
                  | None => ret (default_output n)
                  end h = Ok (v, h0) ∧ cache_le h h0) as (v & h0 & Hres & Hle).
  { destruct (function_pointer n) as [f|];
      [|exists (default_output n), h; split; [done | reflexivity]].
    apply (call_total cache_le) with n; [done | |].
    - intros hz Hz. destruct (cache_le_lookup _ _ _ _ Hz Hn) as (? & -> & _).
      done.
    - intros p hz (n0 & Hn0 & Hp) Hz. simplify_eq.
      destruct (Hrk this n p Hn Hp) as [[m Hm] Hplt].
      apply IH; [|by destruct (cache_le_lookup _ _ _ _ Hz Hm) as (? & -> & _)|lia].
      eapply (ranked_Forall2 cached); [apply cached_inputs | done | done]. }
  destruct (cache_le_lookup _ _ _ _ Hle Hn) as (n0 & Hn0 & Hc).
  exists v, (<[this := set_cache v n0]> h0). split.
  - apply bind_Ok. exists v, h0. split; [done|].
    rewrite (bind_deref _ _ _ _ Hn0). done.
  - by eapply cache_le_store.
Qed.

(** * Properties of the specification *)

(** ** Evaluation with caching *)

(** C3: when the cache of a node is valid, [GetOutput] returns the cached
    value and leaves the heap as it is.  Otherwise the result is the
    default when no operator is set and the result of calling the operator
    on the node when one is set; the result is written to [cached_output]
    of the node, the flag is set, and the result is returned.  After any
    call that returns, [IsCacheValid] is true.  On a closed acyclic input
    graph the call returns, for every fuel above the rank of the node. *)
Theorem GetOutput_caches math this h n (Hn : h !! this = Some n) :
  (cached_output_valid n = true →
   ∀ fuel, GetOutput math (S fuel) this h = Ok (cached_output n, h))
  ∧ (cached_output_valid n = false → function_pointer n = None →
     ∀ fuel, GetOutput math (S fuel) this h =
             Ok (default_output n, <[this := set_cache (default_output n) n]> h))
  ∧ (cached_output_valid n = false →
     ∀ f, function_pointer n = Some f →
     ∀ fuel result h1 n1,
       call math (GetOutput math fuel) f this h = Ok (result, h1) →
       h1 !! this = Some n1 →
       GetOutput math (S fuel) this h =
       Ok (result, <[this := set_cache result n1]> h1))
  ∧ (∀ fuel v h', GetOutput math fuel this h = Ok (v, h') →
     IsCacheValid this h' = Ok (true, h') ∧
     GetOutput math 1 this h' = Ok (v, h'))
  ∧ (∀ rk fuel, ranked inputs rk h → rk this < fuel →
     ∃ v h', GetOutput math fuel this h = Ok (v, h')).
Proof.
  split_and!.
  - intros Hv fuel. simpl. rewrite (bind_deref _ _ _ _ Hn). cbv beta.
    by rewrite Hv.
  - intros Hv Hf fuel. simpl. rewrite (bind_deref _ _ _ _ Hn). cbv beta.
    rewrite Hv, Hf, bind_ret, (bind_deref _ _ _ _ Hn). done.
  - intros Hv f Hf fuel result h1 n1 Hcall Hn1. simpl.
    rewrite (bind_deref _ _ _ _ Hn). cbv beta. rewrite Hv, Hf.
    apply bind_Ok. exists result, h1. split; [done|].
    by rewrite (bind_deref _ _ _ _ Hn1).
  - intros fuel v h' Hrun.
    apply GetOutput_cache_le in Hrun as (_ & n' & Hn' & Hv & Hc).
    unfold IsCacheValid. simpl. rewrite !(bind_deref _ _ _ _ Hn'). cbv beta.
    rewrite Hv, Hc. done.
  - intros rk fuel Hrk Hlt.
    destruct (GetOutput_total math rk fuel this h) as (v & h' & Hrun & _);
      eauto.
Qed.

Lemma GetOutput_caches_witness :
  GetOutput libm_identity 2 2 (heap_after (build_ABC 2) ∅) =
  Ok (7%float,
      <[2 := set_cache 7 (mkGraphNode [0; 1] (Some fn_Sum) 0 [] 0 false)]>
        (<[1 := set_cache 5 (mkGraphNode [] None 5 [2] 0 false)]>
           (<[0 := set_cache 2 (mkGraphNode [] None 2 [2] 0 false)]>
              (heap_after (build_ABC 2) ∅)))).
Proof.
  pose proof (GetOutput_caches libm_identity 2 (heap_after (build_ABC 2) ∅)
                (mkGraphNode [0; 1] (Some fn_Sum) 0 [] 0 false) eq_refl)
    as (_ & _ & Hcall & _).
  apply (Hcall eq_refl fn_Sum eq_refl 1); reflexivity.
Defined.

(** C4: with [A] of default 2, [B] of default 5 and [C] the [Sum] of the
    inputs [A], [B] (wired with [AddInput]), [C.GetOutput()] is 7; after
    [A.SetDefaultOutput(10)], [C.IsCacheValid()] is false and
    [C.GetOutput()] is 15. *)
Theorem scenario_7_invalid_15 math fuel :
  ∃ h, scenario math (S (S fuel)) ∅ = Ok ((7%float, false, 15%float), h).
Proof. eexists. vm_compute. reflexivity. Qed.

(** C8: [SetDefaultOutput] with a value that compares equal to the
    current default returns at once and leaves the whole heap, so every
    flag and every cached value, as they were. *)
Theorem SetDefaultOutput_same_value fuel this value h n
    (Hn : h !! this = Some n)
    (Heq : PrimFloat.eqb (default_output n) value = true) :
  SetDefaultOutput fuel this value h = Ok (tt, h).
Proof.
  unfold SetDefaultOutput. rewrite (bind_deref _ _ _ _ Hn). cbv beta.
  by rewrite Heq.
Qed.

Lemma SetDefaultOutput_same_value_witness :
  SetDefaultOutput 0 0 2 (heap_after (build_ABC 2) ∅) =
  Ok (tt, heap_after (build_ABC 2) ∅).
Proof.
  apply (SetDefaultOutput_same_value 0 0 2 _
           (mkGraphNode [] None 2 [2] 0 false)); reflexivity.
Defined.

(** The comparison is the one of doubles: a NaN default does not compare
    equal to NaN, so writing NaN over NaN does invalidate. *)
Example SetDefaultOutput_nan :
  let h : heap := {[ 0 := mkGraphNode [] None nan [] nan true ]} in
  SetDefaultOutput 1 0 nan h =
  Ok (tt, {[ 0 := mkGraphNode [] None nan [] nan false ]}).
Proof. vm_compute. reflexivity. Qed.

(** ** Invalidation after a mutation *)

Lemma write_fields_this this m h u hm :
  write_fields this m h = Ok (u, hm) → is_Some (hm !! this).
Proof.
  destruct m as [f|node|nodes|nodes|v]; simpl; unfold AddOutput; intros Hrun;
    inv_run; rewrite ?lookup_insert; repeat case_decide; done.
Qed.

(** C2: after a mutation of a node that writes a field
    ([SetFunctionPointer], [AddInput], [AddInputs], [SetInputs], or a
    [SetDefaultOutput] of a value that differs from the default),
    [IsCacheValid] is false for the node and for every node reachable from
    it along output edges.  The mutation returns whenever the output
    graph, as the field writes leave it, is closed and acyclic. *)
Theorem mutation_invalidates_dependents this m h
    (Hch : value_changing this m h) :
  (∀ fuel u h', mutate fuel this m h = Ok (u, h') →
     ∀ y, rtc (out_edge h') this y → IsCacheValid y h' = Ok (false, h'))
  ∧ (∀ hm rk fuel, write_fields this m h = Ok (tt, hm) →
       ranked outputs rk hm → rk this < fuel →
       ∃ h', mutate fuel this m h = Ok (tt, h')).
Proof.
  split.
  - intros fuel u h' Hrun y Hy. rewrite mutate_write_fields in Hrun by done.
    inv_run.
    pose proof (RecursiveInvalidateCache_inval_le _ _ _ _ _ Hrun) as Hle.
    apply (rtc_out_edge_inval_le _ _ _ _ Hle) in Hy.
    destruct (RecursiveInvalidateCache_reach _ _ _ _ _ _ Hrun Hy)
      as (n & Hn & Hinv).
    unfold IsCacheValid. rewrite (bind_deref _ _ _ _ Hn). cbv beta.
    by rewrite Hinv.
  - intros hm rk fuel Hw Hrk Hlt. rewrite mutate_write_fields by done.
    destruct (RecursiveInvalidateCache_total rk fuel this hm) as (h' & Hrun);
      [done | by eapply write_fields_this | done |].
    exists h'. apply bind_Ok. by exists tt, hm.
Qed.

Lemma mutation_invalidates_dependents_witness :
  (∀ fuel u h', mutate fuel 0 (MSetDefaultOutput 10) heap_ABC = Ok (u, h') →
     ∀ y, rtc (out_edge h') 0 y → IsCacheValid y h' = Ok (false, h'))
  ∧ (∀ hm rk fuel,
       write_fields 0 (MSetDefaultOutput 10) heap_ABC = Ok (tt, hm) →
       ranked outputs rk hm → rk 0 < fuel →
       ∃ h', mutate fuel 0 (MSetDefaultOutput 10) heap_ABC = Ok (tt, h')).
Proof.
  apply (mutation_invalidates_dependents 0 (MSetDefaultOutput 10) heap_ABC).
  exists (mkGraphNode [] None 2 [2] 2 true). split; reflexivity.
Defined.

(** ** What invalidation leaves alone *)


Lemma written_refl this a na : written this a na na.
Proof. split_and!; [done | by left | done]. Qed.

Lemma write_fields_lookup this m h u hm a :
  write_fields this m h = Ok (u, hm) →
  option_Forall2 (written this a) (h !! a) (hm !! a).
Proof.
  destruct m as [f|node|nodes|nodes|v]; simpl; unfold AddOutput; intros Hrun;
    inv_run.
  2: { rename n into nn, Hn into Hnn, n0 into n, Hn0 into Hn.
       rewrite lookup_insert in Hnn. rewrite !lookup_insert.
       repeat case_decide; simplify_eq; rewrite ?Hn, ?Hnn;
         try (constructor; split_and!; simpl;
              [done
              |intros b Hb;
               try (apply elem_of_app in Hb as [Hb|Hb%list_elem_of_singleton]);
               by eauto
              |done]).
       all: destruct (h !! a); constructor; apply written_refl. }
  all: rewrite lookup_insert; case_decide; simplify_eq;
    [rewrite Hn; constructor; split_and!; [done | by left | done]
    |destruct (h !! a); constructor; apply written_refl].
Qed.

Lemma write_fields_out_edge this m h u hm a b :
  write_fields this m h = Ok (u, hm) →
  out_edge hm a b → b ≠ this → out_edge h a b.
Proof.
  intros Hw (na' & Hna' & Hb) Hne.
  pose proof (write_fields_lookup _ _ _ _ _ a Hw) as Hl. rewrite Hna' in Hl.
  inversion Hl as [na ? (_ & Hout & _) Hna|]. exists na. split; [done|].
  by destruct (Hout b Hb).
Qed.

Lemma write_fields_in_edge this m h u hm a b :
  write_fields this m h = Ok (u, hm) →
  in_edge h b a → b ≠ this → in_edge hm b a.
Proof.
  intros Hw (nb & Hnb & Ha) Hne.
  pose proof (write_fields_lookup _ _ _ _ _ b Hw) as Hl. rewrite Hnb in Hl.
  inversion Hl as [x nb' (Hin & _) Hx Hnb'|]. exists nb'. split; [done|].
  by rewrite (Hin Hne).
Qed.

(** When every output edge mirrors an input edge, a node reached from
    [this] along output edges reaches [this] along input edges. *)
Lemma out_reach_in_reach this m h u hm y :
  (∀ a b, out_edge h a b → in_edge h b a) →
  write_fields this m h = Ok (u, hm) →
  rtc (out_edge hm) this y →
  rtc (in_edge hm) y this ∧ rtc (in_edge h) y this.
Proof.
  intros Hmir Hw Hy. revert y Hy.
  apply (rtc_ind_r (λ y, rtc (in_edge hm) y this ∧ rtc (in_edge h) y this));
    [done|]. intros y z Hy Hyz [IH1 IH2].
  destruct (decide (z = this)) as [->|Hne]; [done|].
  pose proof (Hmir _ _ (write_fields_out_edge _ _ _ _ _ _ _ Hw Hyz Hne)) as Hzy.
  split; [|by eapply rtc_l].
  eapply rtc_l; [|done]. by eapply write_fields_in_edge.
Qed.

Lemma mutate_same_or_written fuel this m h u h' :
  mutate fuel this m h = Ok (u, h') → h' = h ∨ value_changing this m h.
Proof.
  destruct m as [f|node|nodes|nodes|v]; simpl; try by right.
  unfold SetDefaultOutput. intros Hrun. inv_run.
  destruct (PrimFloat.eqb (default_output n) v) eqn:Heq; simpl in Hrun; inv_run;
    [by left | right; eauto].
Qed.


Lemma mirroredb_sound h :
  mirroredb h = true → ∀ a b, out_edge h a b → in_edge h b a.
Proof.
  unfold mirroredb. rewrite forallb_forall. intros Hall a b (n & Hn & Hb).
  apply elem_of_map_to_list, list_elem_of_In in Hn.
  specialize (Hall (a, n) Hn). simpl in Hall.
  rewrite forallb_forall in Hall. apply list_elem_of_In, Hall in Hb.
  destruct (h !! b) as [nb|] eqn:Hnb; [|done].
  exists nb. split; [done|]. by apply bool_decide_eq_true in Hb.
Qed.


Lemma rankedb_sound E rk h : rankedb E rk h = true → ranked E rk h.
Proof.
  unfold rankedb. rewrite forallb_forall. intros Hall a n b Hn Hb.
  apply elem_of_map_to_list, list_elem_of_In in Hn.
  specialize (Hall (a, n) Hn). simpl in Hall.
  rewrite forallb_forall in Hall. apply list_elem_of_In, Hall in Hb.
  apply andb_true_iff in Hb as [H1 H2]. split.
  - by apply bool_decide_eq_true in H1.
  - by apply Nat.ltb_lt.
Qed.

Lemma ranked_inputs_acyclic rk h :
  ranked inputs rk h → ∀ z, ¬ tc (in_edge h) z z.
Proof.
  intros Hrk. assert (∀ a b, tc (in_edge h) a b → rk b < rk a) as Hlt.
  { induction 1 as [a b (n & Hn & Hb)|a b c (n & Hn & Hb) _ IH].
    - by destruct (Hrk a n b Hn Hb).
    - destruct (Hrk a n b Hn Hb). lia. }
  intros z Hz%Hlt. lia.
Qed.

(** C10, as the code has it: a mutation of a node leaves the cache flag
    and the cached value of every node that is not reachable from it along
    output edges as they were.  So when every output edge mirrors an input
    edge ([b] in [a]'s outputs implies [a] in [b]'s inputs) and the input
    graph is acyclic before and after the mutation, it leaves those of
    every node it reaches along input edges as they were. *)
Theorem mutation_frames_inputs fuel this m h u h'
    (Hrun : mutate fuel this m h = Ok (u, h')) :
  (∀ y, ¬ rtc (out_edge h') this y → cache_state h' y = cache_state h y)
  ∧ ((∀ a b, out_edge h a b → in_edge h b a) →
     (∀ z, ¬ tc (in_edge h) z z) →
     (∀ z, ¬ tc (in_edge h') z z) →
     ∀ y, tc (in_edge h) this y ∨ tc (in_edge h') this y →
          cache_state h' y = cache_state h y).
Proof.
  destruct (mutate_same_or_written _ _ _ _ _ _ Hrun) as [->|Hch]; [done|].
  rewrite mutate_write_fields in Hrun by done. inv_run.
  match goal with
  | H : write_fields _ _ _ = Ok (_, ?h0) |- _ => rename H into Hw, h0 into hm
  end.
  pose proof (RecursiveInvalidateCache_inval_le _ _ _ _ _ Hrun) as Hle.
  assert (∀ y, ¬ rtc (out_edge hm) this y →
               cache_state h' y = cache_state h y) as Hframe.
  { intros y Hy. rewrite <- (write_fields_cache_state _ _ _ _ _ y Hw).
    unfold cache_state. f_equal.
    by eapply RecursiveInvalidateCache_frame. }
  split.
  - intros y Hy. apply Hframe. intros Hout. apply Hy.
    by apply (rtc_out_edge_inval_le _ _ _ _ Hle).
  - intros Hmir Hacyc Hacyc' y Hy. apply Hframe. intros Hout.
    destruct (out_reach_in_reach _ _ _ _ _ _ Hmir Hw Hout) as [Hin' Hin].
    destruct Hy as [Hy|Hy].
    + apply (Hacyc this). by eapply tc_rtc_r.
    + apply (Hacyc' this). apply (tc_in_edge_inval_le _ _ _ _ Hle).
      apply (tc_in_edge_inval_le _ _ _ _ Hle) in Hy. by eapply tc_rtc_r.
Qed.

Lemma mutation_frames_inputs_witness :
  cache_state
    (heap_after (mutate 1 2 (MSetFunctionPointer (Some fn_Product))) heap_ABC) 0
  = cache_state heap_ABC 0.
Proof.
  refine (proj2 (mutation_frames_inputs 1 2
                   (MSetFunctionPointer (Some fn_Product)) heap_ABC tt
                   (heap_after
                      (mutate 1 2 (MSetFunctionPointer (Some fn_Product)))
                      heap_ABC) _) _ _ _ 0 _).
  - vm_compute. reflexivity.
  - apply mirroredb_sound. vm_compute. reflexivity.
  - apply (ranked_inputs_acyclic (λ a, if a =? 2 then 1 else 0)),
      rankedb_sound. vm_compute. reflexivity.
  - apply (ranked_inputs_acyclic (λ a, if a =? 2 then 1 else 0)),
      rankedb_sound. vm_compute. reflexivity.
  - left. apply tc_once.
    exists (mkGraphNode [0; 1] (Some fn_Sum) 0 [] 7 true).
    split; [reflexivity | set_solver].
Defined.

(** C10 as stated fails.  [A] lists [C] as an output although [C] no
    longer consumes [A], and [A] consumes [C]: setting the default of [A]
    clears the valid cache of [C], a node that [A] reaches along its input
    edge. *)
Lemma mutation_frames_inputs_counterexample :
  build_stale 2 ∅ = Ok ((0, 1), heap_stale)
  ∧ mutate 2 0 (MSetDefaultOutput 10) heap_stale =
    Ok (tt, heap_after (mutate 2 0 (MSetDefaultOutput 10)) heap_stale)
  ∧ in_edge heap_stale 0 1
  ∧ in_edge (heap_after (mutate 2 0 (MSetDefaultOutput 10)) heap_stale) 0 1
  ∧ cache_state heap_stale 1 = Some (true, 5%float)
  ∧ cache_state (heap_after (mutate 2 0 (MSetDefaultOutput 10)) heap_stale) 1
    = Some (false, 5%float).
Proof.
  split_and!; try (vm_compute; reflexivity).
  - exists (mkGraphNode [1] None 2 [1] 0 false). split; [reflexivity|].
    apply list_elem_of_singleton. reflexivity.
  - exists (mkGraphNode [1] None 10 [1] 0 false). split; [reflexivity|].
    apply list_elem_of_singleton. reflexivity.
Qed.

(** ** Registration of output edges *)

Lemma out_edge_set_inputs h this n l a b :
  h !! this = Some n →
  out_edge (<[this := set_inputs l n]> h) a b ↔ out_edge h a b.
Proof.
  intros Hn. unfold out_edge. destruct (decide (this = a)) as [<-|Hne].
  - rewrite lookup_insert_eq, Hn. split; intros (m & [= <-] & Hb); eauto.
  - by rewrite lookup_insert_ne.
Qed.

Lemma in_edge_set_inputs h this n l p :
  p ∈ l → in_edge (<[this := set_inputs l n]> h) this p.
Proof.
  intros Hp. exists (set_inputs l n). split; [apply lookup_insert_eq | done].
Qed.

(** C1 at the failing inputs.  [AddInput] records the edge on both sides.
    [AddInputs] and [SetInputs] record it in [inputs] only and leave every
    [outputs] list as it was, so the node is missing from the [outputs] of
    its new inputs.  On the scenario graph a later change of [A] then does
    not reach [C]: its cache stays valid and it keeps returning the stale
    7. *)
Theorem AddInputs_SetInputs_skip_AddOutput math fuel :
  (∀ this node h u h',
     AddInput fuel this node h = Ok (u, h') →
     in_edge h' this node ∧ out_edge h' node this)
  ∧ (∀ this nodes h u h',
       AddInputs fuel this nodes h = Ok (u, h') →
       (∀ p, p ∈ nodes → in_edge h' this p)
       ∧ (∀ a b, out_edge h' a b ↔ out_edge h a b))
  ∧ (∀ this nodes h u h',
       SetInputs fuel this nodes h = Ok (u, h') →
       (∀ p, p ∈ nodes → in_edge h' this p)
       ∧ (∀ a b, out_edge h' a b ↔ out_edge h a b))
  ∧ (∃ h, build_ABC (S fuel) ∅ = Ok ((0, 1, 2), h)
          ∧ in_edge h 2 0 ∧ out_edge h 0 2)
  ∧ (∃ h, build_ABC_AddInputs (S fuel) ∅ = Ok ((0, 1, 2), h)
          ∧ in_edge h 2 0 ∧ ¬ out_edge h 0 2)
  ∧ (∃ h, build_ABC_SetInputs (S fuel) ∅ = Ok ((0, 1, 2), h)
          ∧ in_edge h 2 0 ∧ ¬ out_edge h 0 2)
  ∧ (∃ h, scenario_AddInputs math (S (S fuel)) ∅ =
          Ok ((7%float, true, 7%float), h)).
Proof.
  split_and!.
  - intros this node h u h' Hrun. unfold AddInput, AddOutput in Hrun. inv_run.
    match goal with
    | H : RecursiveInvalidateCache _ _ _ = Ok _ |- _ =>
        apply RecursiveInvalidateCache_inval_le in H; rename H into Hle
    end.
    split.
    + apply (in_edge_inval_le _ _ _ _ Hle).
      match goal with
      | H : <[this := ?m]> h !! node = Some ?nn |- _ =>
          destruct (decide (node = this)) as [->|Hne];
          [rewrite lookup_insert_eq in H; simplify_eq;
           eexists; split; [apply lookup_insert_eq | simpl; set_solver]
          |exists m; split;
           [by rewrite lookup_insert_ne, lookup_insert_eq | simpl; set_solver]]
      end.
    + apply (out_edge_inval_le _ _ _ _ Hle).
      eexists. split; [apply lookup_insert_eq | simpl; set_solver].
  - intros this nodes h u h' Hrun. unfold AddInputs in Hrun. inv_run.
    apply RecursiveInvalidateCache_inval_le in Hrun. split.
    + intros p Hp. apply (in_edge_inval_le _ _ _ _ Hrun).
      apply in_edge_set_inputs. set_solver.
    + intros a b. rewrite <- (out_edge_inval_le _ _ _ _ Hrun).
      by apply out_edge_set_inputs.
  - intros this nodes h u h' Hrun. unfold SetInputs in Hrun. inv_run.
    apply RecursiveInvalidateCache_inval_le in Hrun. split.
    + intros p Hp. apply (in_edge_inval_le _ _ _ _ Hrun).
      by apply in_edge_set_inputs.
    + intros a b. rewrite <- (out_edge_inval_le _ _ _ _ Hrun).
      by apply out_edge_set_inputs.
  - eexists. split_and!; [vm_compute; reflexivity | |].
    + eexists. split; [vm_compute; reflexivity|]. set_solver.
    + eexists. split; [vm_compute; reflexivity|]. set_solver.
  - eexists. split_and!; [vm_compute; reflexivity | |].
    + eexists. split; [vm_compute; reflexivity|]. set_solver.
    + intros (n & Hn & Hout). vm_compute in Hn. simplify_eq. set_solver.
  - eexists. split_and!; [vm_compute; reflexivity | |].
    + eexists. split; [vm_compute; reflexivity|]. set_solver.
    + intros (n & Hn & Hout). vm_compute in Hn. simplify_eq. set_solver.
  - eexists. vm_compute. reflexivity.
Qed.

(** ** Indexed input access *)

Lemma std_transform_lookup (R : heap → heap → Prop) `{!PreOrder R}
    {A B} (f : A → M B) l h vs h' :
  (∀ z hz hz' w, z ∈ l → R h hz → f z hz = Ok (w, hz') → R hz hz') →
  std_transform f l h = Ok (vs, h') →
  ∀ j z, l !! j = Some z →
         ∃ v hz hz', vs !! j = Some v ∧ f z hz = Ok (v, hz') ∧ R hz' h'.
Proof.
  revert h vs. induction l as [|x l IH]; intros h vs Hf Hrun j z Hj;
    simpl in Hrun; [done|]. inv_run.
  assert (R h h0) as Hx by (eapply Hf; [left | reflexivity | done]).
  assert (∀ z hz hz' w, z ∈ l → R h0 hz → f z hz = Ok (w, hz') → R hz hz')
    as Hf'.
  { intros z' hz hz' w Hz' Hhz. eapply Hf; [by right | by transitivity h0]. }
  destruct j as [|j]; simpl in Hj.
  - simplify_eq. exists a, h, h0. split_and!; [done | done |].
    eapply (std_transform_preserves R); done.
  - edestruct IH as (v & hz & hz' & Hv & Hz & HR); [exact Hf' | done | done |].
    exists v, hz, hz'. done.
Qed.

(** C7: for a non-empty index list, [GetInputValues(indices)] returns
    [nullopt], and evaluates nothing, as soon as one index is at or beyond
    the number of inputs.  When every index is in range, a run that
    returns gives a vector with one value per index, in order, each the
    output of the input at that index (asking that input again returns the
    same value from its cache); and on a closed acyclic input graph the
    run returns. *)
Theorem GetInputValues_at_all_or_nothing math fuel indices this h n
    (Hne : indices ≠ []) (Hn : h !! this = Some n) :
  ((∃ i, i ∈ indices ∧ length (inputs n) ≤ i) →
   GetInputValues_at (GetOutput math fuel) indices this h = Ok (None, h))
  ∧ ((∀ i, i ∈ indices → i < length (inputs n)) →
     (∀ r h', GetInputValues_at (GetOutput math fuel) indices this h = Ok (r, h') →
        ∃ vals, r = Some vals ∧ length vals = length indices ∧
          ∀ j i, indices !! j = Some i →
            ∃ p v, inputs n !! i = Some p ∧ vals !! j = Some v
                   ∧ GetOutput math 1 p h' = Ok (v, h'))
     ∧ (∀ rk, ranked inputs rk h → rk this ≤ fuel →
        ∃ vals h', GetInputValues_at (GetOutput math fuel) indices this h =
                   Ok (Some vals, h'))).
Proof.
  destruct (max_element Nat.ltb indices) as [max_index|] eqn:Hmax;
    [|by destruct indices].
  pose proof (max_element_index_bound indices (length (inputs n)) _ Hmax) as Hb.
  split; [|intros Hall; split].
  - intros (i & Hi & Hge). unfold GetInputValues_at.
    rewrite (bind_deref _ _ _ _ Hn). cbv beta. rewrite Hmax.
    destruct (Nat.leb_spec (length (inputs n)) max_index) as [|Hlt]; [done|].
    pose proof (proj1 Hb Hlt i Hi). lia.
  - intros r h' Hrun. unfold GetInputValues_at in Hrun.
    rewrite (bind_deref _ _ _ _ Hn) in Hrun. cbv beta in Hrun.
    rewrite Hmax in Hrun.
    destruct (Nat.leb_spec (length (inputs n)) max_index) as [Hle|_];
      [pose proof (proj2 Hb Hall); lia|]. inv_run.
    exists a. split_and!; [done | by eapply std_transform_length |].
    intros j i Hj.
    match goal with
    | H : std_transform ?f _ _ = Ok _ |- _ =>
        assert (∀ z hz hz' w, z ∈ indices → cache_le h hz →
                  f z hz = Ok (w, hz') → cache_le hz hz') as Hpres;
        [|destruct (std_transform_lookup cache_le _ _ _ _ _ Hpres H j i Hj)
            as (v & hz & hz' & Hv & Hz & Hle)]
    end.
    { intros z hz hz' w _ _ Hz. cbv beta in Hz. inv_run.
      match goal with
      | H : at_index _ _ _ = Ok _ |- _ =>
          apply at_index_Ok in H as (? & ? & ?); simplify_eq
      end.
      by eapply GetOutput_cache_le. }
    cbv beta in Hz. inv_run.
    match goal with
    | H : at_index _ _ _ = Ok _ |- _ =>
        apply at_index_Ok in H as (p & Hp & ?); simplify_eq
    end.
    exists p, v. split_and!; [done | done |].
    apply GetOutput_cache_le in Hz as (_ & n' & Hn' & Hvalid & Hc).
    pose proof (cache_le_valid _ _ _ _ Hle Hn' Hvalid) as Hp'.
    simpl. rewrite (bind_deref _ _ _ _ Hp'). cbv beta. by rewrite Hvalid, Hc.
  - intros rk Hrk Hfuel.
    destruct (GetInputValues_at_total cache_le (GetOutput math fuel)
                indices this h n Hn Hne) as (r & h' & Hrun & _ & _).
    { intros p hz (n0 & Hn0 & Hp) Hz. simplify_eq.
      destruct (Hrk this n p Hn Hp) as [[m Hm] Hplt].
      apply (GetOutput_total math rk);
        [|by destruct (cache_le_lookup _ _ _ _ Hz Hm) as (? & -> & _)|lia].
      eapply (ranked_Forall2 cached); [apply cached_inputs | done | done]. }
    destruct r as [vals|]; [by eauto|]. exfalso.
    unfold GetInputValues_at in Hrun.
    rewrite (bind_deref _ _ _ _ Hn) in Hrun. cbv beta in Hrun.
    rewrite Hmax in Hrun.
    destruct (Nat.leb_spec (length (inputs n)) max_index) as [Hle|_];
      [pose proof (proj2 Hb Hall); lia|]. inv_run.
Qed.

Lemma GetInputValues_at_all_or_nothing_witness :
  GetInputValues_at (GetOutput libm_identity 1) [1; 2] 2
    (heap_after (build_ABC 2) ∅) =
  Ok (None, heap_after (build_ABC 2) ∅).
Proof.
  refine (proj1 (GetInputValues_at_all_or_nothing libm_identity 1 [1; 2] 2
                   (heap_after (build_ABC 2) ∅)
                   (mkGraphNode [0; 1] (Some fn_Sum) 0 [] 0 false) _ _) _).
  - done.
  - reflexivity.
  - exists 2. split; [set_solver | simpl; lia].
Defined.

(** ** The operator catalog *)

Lemma float_one_neq_zero : 1%float ≠ 0%float.
Proof.
  intros H.
  assert (PrimFloat.eqb 1 1 = PrimFloat.eqb 1 0) as E by (by rewrite <- H).
  vm_compute in E. discriminate.
Qed.

Lemma any_of_false {A} (p : A → bool) l :
  any_of p l = false ↔ ∀ x, x ∈ l → p x = false.
Proof.
  unfold any_of. induction l as [|x l IH]; simpl.
  - split; [intros _ y Hy; by apply elem_of_nil in Hy | done].
  - rewrite orb_false_iff, IH. split.
    + intros [Hx Hl] y [->|Hy]%elem_of_cons; eauto.
    + intros Hall. split; [apply Hall; left|]. intros y Hy. apply Hall.
      by right.
Qed.

Lemma is_sorted_from_true {A} (comp : A → A → bool) first l :
  is_sorted_from comp first l = true ↔
  ∀ i a b, (first :: l) !! i = Some a → (first :: l) !! S i = Some b →
           comp b a = false.
Proof.
  revert first. induction l as [|next l IH]; intros first; simpl.
  - split; [|done]. intros _ [|i] a b Ha Hb; simpl in *; done.
  - destruct (comp next first) eqn:Hc.
    + split; [done|]. intros Hall.
      specialize (Hall 0 first next eq_refl eq_refl). congruence.
    + rewrite IH. split.
      * intros Hall [|i] a b Ha Hb; simpl in *; [congruence|]. by eapply Hall.
      * intros Hall i a b Ha Hb. by apply (Hall (S i)).
Qed.

Lemma is_sorted_true {A} (comp : A → A → bool) l :
  is_sorted comp l = true ↔
  ∀ i a b, l !! i = Some a → l !! S i = Some b → comp b a = false.
Proof.
  destruct l as [|first l]; simpl; [|apply is_sorted_from_true].
  split; [|done]. intros _ i a b Ha. done.
Qed.

(** The reductions walk the range four elements at a time. *)
Lemma list_ind4 {A} (P : list A → Prop) :
  P [] → (∀ a, P [a]) → (∀ a b, P [a; b]) → (∀ a b c, P [a; b; c]) →
  (∀ a b c d l, P l → P (a :: b :: c :: d :: l)) →
  ∀ l, P l.
Proof.
  intros H0 H1 H2 H3 H4 l.
  assert (∀ n l, length l < n → P l) as Hlt;
    [|apply (Hlt (S (length l))); lia].
  clear l. induction n as [|n IH]; intros l Hlen; [lia|].
  destruct l as [|a [|b [|c [|d l]]]]; auto.
  apply H4, IH. simpl in Hlen. lia.
Qed.

Lemma grouped_snoc op l r v : grouped op l r → grouped op (l ++ [v]) (op r v).
Proof. intros H. apply grouped_node; [done | apply grouped_leaf]. Qed.

Lemma fold_left_grouped op vals l r :
  grouped op l r → grouped op (l ++ vals) (fold_left op vals r).
Proof.
  revert l r. induction vals as [|v vals IH]; intros l r H; simpl.
  - by rewrite app_nil_r.
  - replace (l ++ v :: vals) with ((l ++ [v]) ++ vals)
      by (by rewrite <- (assoc_L (++))).
    by apply IH, grouped_snoc.
Qed.

(** [std::reduce] combines the initial value and the elements of the
    range, each once and in order. *)
Lemma std_reduce_grouped op init vals :
  grouped op (init :: vals) (std_reduce op init vals).
Proof.
  assert (∀ l r, grouped op l r → grouped op (l ++ vals) (std_reduce op r vals))
    as Hgen; [|apply (Hgen [init]), grouped_leaf].
  induction vals as [|a|a b|a b c|a b c d vals IH] using list_ind4; intros l r H;
    try (by apply fold_left_grouped).
  change (std_reduce op r (a :: b :: c :: d :: vals))
    with (std_reduce op (op r (op (op a b) (op c d))) vals).
  replace (l ++ a :: b :: c :: d :: vals) with ((l ++ [a; b; c; d]) ++ vals)
    by (by rewrite <- (assoc_L (++))).
  apply IH. apply grouped_node; [done|].
  apply (grouped_node op [a; b] [c; d]);
    [apply (grouped_node op [a] [b]) | apply (grouped_node op [c] [d])];
    apply grouped_leaf.
Qed.

(** [std::transform_reduce] is [std::reduce] on the transformed range. *)
Lemma std_transform_reduce_map init op f vals :
  std_transform_reduce init op f vals = std_reduce op init (map f vals).
Proof.
  revert init.
  induction vals as [|a|a b|a b c|a b c d vals IH] using list_ind4; intros init;
    try reflexivity.
  apply IH.
Qed.

(** C5: on the current input values [vals] of a node, [Sum] returns the
    reduction of [vals] by [+] from 0 and [Product] the reduction by [*]
    from 1: the sum, or product, of the initial value and all input values,
    each once and in order, under the grouping of [std::reduce]; that is
    left to right on fewer than four inputs and [init + ((a + b) + (c +
    d))] on four.  So [Sum] is 0 and [Product] is 1 on no inputs.  [And] is
    1 exactly when no value compares equal to 0; [LessThan] is 1 exactly
    when no value is less than its predecessor, in particular on at most
    one input; [Gate] on the values [v0], [v1] of inputs 0 and 1 is [v0]
    when [v1 != 0] and 0 otherwise.  The catalog examples evaluate as
    stated. *)
Theorem operators_compute_catalog math eval this h vals h'
    (Hvals : GetInputValues eval this h = Ok (vals, h')) :
  Sum eval this h = Ok (std_reduce PrimFloat.add 0%float vals, h')
  ∧ grouped PrimFloat.add (0%float :: vals) (std_reduce PrimFloat.add 0%float vals)
  ∧ (length vals < 4 →
     Sum eval this h = Ok (fold_left PrimFloat.add vals 0%float, h'))
  ∧ (∀ a b c d, vals = [a; b; c; d] →
       Sum eval this h = Ok ((0 + ((a + b) + (c + d)))%float, h'))
  ∧ (vals = [] → Sum eval this h = Ok (0%float, h'))
  ∧ Product eval this h = Ok (std_reduce PrimFloat.mul 1%float vals, h')
  ∧ grouped PrimFloat.mul (1%float :: vals) (std_reduce PrimFloat.mul 1%float vals)
  ∧ (length vals < 4 →
     Product eval this h = Ok (fold_left PrimFloat.mul vals 1%float, h'))
  ∧ (∀ a b c d, vals = [a; b; c; d] →
       Product eval this h = Ok ((1 * ((a * b) * (c * d)))%float, h'))
  ∧ (vals = [] → Product eval this h = Ok (1%float, h'))
  ∧ (∃ r, And eval this h = Ok (r, h') ∧ (r = 1%float ∨ r = 0%float)
          ∧ (r = 1%float ↔ ∀ v, v ∈ vals → PrimFloat.eqb v 0 = false))
  ∧ (∃ r, LessThan eval this h = Ok (r, h') ∧ (r = 1%float ∨ r = 0%float)
          ∧ (r = 1%float ↔
             ∀ i a b, vals !! i = Some a → vals !! S i = Some b →
                      PrimFloat.ltb b a = false)
          ∧ (length vals ≤ 1 → r = 1%float))
  ∧ (∀ v0 v1 hg,
       GetInputValues_at eval [0; 1] this h = Ok (Some [v0; v1], hg) →
       Gate eval this h = Ok (if PrimFloat.eqb v1 0 then 0%float else v0, hg))
  ∧ (∃ h1, apply_operator math fn_Sum 0 [2; 3; -1]%float ∅ = Ok (4%float, h1))
  ∧ (∃ h1, apply_operator math fn_And 0 [1; 2; 0]%float ∅ = Ok (0%float, h1))
  ∧ (∃ h1, apply_operator math fn_And 0 [1; 2; 3]%float ∅ = Ok (1%float, h1))
  ∧ (∃ h1, apply_operator math fn_Gate 0 [7; 1]%float ∅ = Ok (7%float, h1))
  ∧ (∃ h1, apply_operator math fn_Gate 0 [7; 0]%float ∅ = Ok (0%float, h1))
  ∧ (∃ h1, apply_operator math fn_LessThan 0 [1; 2; 2; 5]%float ∅ =
           Ok (1%float, h1))
  ∧ (∃ h1, apply_operator math fn_LessThan 0 [3; 1]%float ∅ = Ok (0%float, h1)).
Proof.
  assert (∀ op init, length vals < 4 →
            std_reduce op init vals = fold_left op vals init) as Hshort.
  { intros op init Hlen.
    destruct vals as [|a [|b [|c [|d l]]]]; try reflexivity. simpl in Hlen. lia. }
  split_and!; try (eexists; vm_compute; reflexivity);
    try apply std_reduce_grouped.
  - unfold Sum, bind. by rewrite Hvals.
  - intros Hlen. unfold Sum, bind. by rewrite Hvals, Hshort.
  - intros a b c d ->. unfold Sum, bind. by rewrite Hvals.
  - intros ->. unfold Sum, bind. by rewrite Hvals.
  - unfold Product, bind. by rewrite Hvals.
  - intros Hlen. unfold Product, bind. by rewrite Hvals, Hshort.
  - intros a b c d ->. unfold Product, bind. by rewrite Hvals.
  - intros ->. unfold Product, bind. by rewrite Hvals.
  - unfold And, bind. rewrite Hvals.
    destruct (any_of (λ val, PrimFloat.eqb val 0) vals) eqn:Hany.
    + exists 0%float. split_and!; [done | by right |]. split.
      * intros H. symmetry in H. by apply float_one_neq_zero in H.
      * intros Hall%any_of_false. congruence.
    + exists 1%float. split_and!; [done | by left |]. split; [|done].
      intros _. by apply any_of_false.
  - unfold LessThan, bind. rewrite Hvals.
    pose proof (is_sorted_true less vals) as Hs. unfold less in Hs at 2.
    destruct (is_sorted less vals) eqn:Hsorted.
    + exists 1%float. split_and!; [done | by left | | done]. split; [|done].
      intros _. by apply Hs.
    + exists 0%float. split_and!; [done | by right | |].
      * split.
        -- intros H. symmetry in H. by apply float_one_neq_zero in H.
        -- intros Hall%Hs. congruence.
      * intros Hlen. destruct vals as [|v [|? ?]]; simpl in *; [done | done | lia].
  - intros v0 v1 hg Hat. unfold Gate, bind at 1. rewrite Hat.
    unfold bind, at_index, ret; simpl. by destruct (PrimFloat.eqb v1 0).
Qed.

Lemma operators_compute_catalog_witness :
  Sum (GetOutput libm_identity 1) 0 heap_Sum =
  Ok (0%float, heap_after (GetInputValues (GetOutput libm_identity 1) 0) heap_Sum).
Proof.
  refine (proj1 (operators_compute_catalog libm_identity
                   (GetOutput libm_identity 1) 0 heap_Sum
                   [10000000000000000; 1; -10000000000000000; 1]%float _ _)).
  vm_compute. reflexivity.
Defined.

Lemma bind_assoc {A B C} (m : M A) (k1 : A → M B) (k2 : B → M C) h :
  bind (bind m k1) k2 h = bind m (λ x, bind (k1 x) k2) h.
Proof. unfold bind. by destruct (m h) as [[a h1]| |]. Qed.

(** C6: an operator with a minimum arity ([Not]: 1, [Gate]: 2, [AnyEq],
    [Max], [Min]: 1), called on a node with fewer inputs, returns the
    default of the node; it evaluates no input, leaves the heap as it is
    and cannot fault.  [GetOutput] on such a node, its cache invalid,
    therefore returns and caches the default. *)
Theorem arity_shortfall_returns_default math eval f k this h n
    (Hk : min_arity f = Some k)
    (Hn : h !! this = Some n)
    (Hlen : length (inputs n) < k) :
  call math eval f this h = Ok (default_output n, h)
  ∧ (cached_output_valid n = false → function_pointer n = Some f →
     ∀ fuel, GetOutput math (S fuel) this h =
             Ok (default_output n,
                 <[this := set_cache (default_output n) n]> h)).
Proof.
  assert (∀ ev, call math ev f this h = Ok (default_output n, h)) as Hcall.
  { intros ev. destruct f; simpl in Hk; simplify_eq; simpl;
      unfold AnyEq, Not, Gate, Max, Min, GetInputValues, GetInputValues_at,
        GetDefaultOutput;
      rewrite bind_assoc, (bind_deref _ _ _ _ Hn); cbv beta.
    - destruct (inputs n); [|simpl in Hlen; lia]. simpl std_transform.
      rewrite bind_ret. simpl. by rewrite (bind_deref _ _ _ _ Hn).
    - simpl max_element. cbv iota.
      destruct (Nat.leb_spec (length (inputs n)) 0) as [_|?]; [|lia].
      rewrite bind_ret. simpl. by rewrite (bind_deref _ _ _ _ Hn).
    - simpl max_element. cbv iota.
      destruct (Nat.leb_spec (length (inputs n)) 1) as [_|?]; [|lia].
      rewrite bind_ret. simpl. by rewrite (bind_deref _ _ _ _ Hn).
    - destruct (inputs n); [|simpl in Hlen; lia]. simpl std_transform.
      rewrite bind_ret. simpl. by rewrite (bind_deref _ _ _ _ Hn).
    - destruct (inputs n); [|simpl in Hlen; lia]. simpl std_transform.
      rewrite bind_ret. simpl. by rewrite (bind_deref _ _ _ _ Hn). }
  split; [apply Hcall|].
  intros Hv Hf fuel. simpl. rewrite (bind_deref _ _ _ _ Hn). cbv beta.
  rewrite Hv, Hf. apply bind_Ok. exists (default_output n), h.
  split; [apply Hcall|]. by rewrite (bind_deref _ _ _ _ Hn).
Qed.

Lemma arity_shortfall_returns_default_witness :
  call libm_identity (GetOutput libm_identity 1) fn_Gate 1
    (<[1 := mkGraphNode [0] (Some fn_Gate) 9 [] 0 false]>
       {[ 0 := mkGraphNode [] None 7 [1] 0 false ]}) =
  Ok (9%float,
      <[1 := mkGraphNode [0] (Some fn_Gate) 9 [] 0 false]>
        {[ 0 := mkGraphNode [] None 7 [1] 0 false ]}).
Proof.
  refine (proj1 (arity_shortfall_returns_default libm_identity
                   (GetOutput libm_identity 1) fn_Gate 2 1 _
                   (mkGraphNode [0] (Some fn_Gate) 9 [] 0 false) _ _ _)).
  - reflexivity.
  - reflexivity.
  - simpl. lia.
Defined.

(** ** The registry *)

(** The cache of a constant node holds its default in every heap a
    program can build. *)
Lemma make_shared_constant_cache_ok n h p h' :
  cached_output_valid n = false → constant_cache_ok h →
  make_shared n h = Ok (p, h') → constant_cache_ok h'.
Proof.
  intros Hinv Hok [= <- <-] q m Hq Hv Hf.
  rewrite lookup_insert in Hq. case_decide; simplify_eq; [congruence|].
  by apply (Hok q m).
Qed.

Lemma mutate_constant_cache_ok fuel this m h u h' :
  constant_cache_ok h → mutate fuel this m h = Ok (u, h') →
  constant_cache_ok h'.
Proof.
  intros Hok Hrun.
  destruct (mutate_same_or_written _ _ _ _ _ _ Hrun) as [->|Hch]; [done|].
  rewrite mutate_write_fields in Hrun by done. inv_run.
  match goal with
  | H : write_fields _ _ _ = Ok (_, ?h0) |- _ => rename H into Hw, h0 into hm
  end.
  pose proof (RecursiveInvalidateCache_inval_le _ _ _ _ _ Hrun) as Hle.
  intros q n' Hq Hvalid Hf.
  destruct (RecursiveInvalidateCache_reach _ _ _ _ _ this Hrun)
    as (nt & Hnt & Hinv); [done|].
  destruct (decide (q = this)) as [->|Hne]; [congruence|].
  destruct (inval_le_lookup_r _ _ _ _ Hle Hq) as (nm & Hnm & [->| ->]);
    [|done].
  pose proof (write_fields_lookup _ _ _ _ _ q Hw) as Hl. rewrite Hnm in Hl.
  inversion Hl as [n0 ? (_ & _ & Hsame) Hn0|]. specialize (Hsame Hne).
  symmetry in Hn0.
  assert (cached_output nm = cached_output n0 ∧
          default_output nm = default_output n0 ∧
          function_pointer nm = function_pointer n0 ∧
          cached_output_valid nm = cached_output_valid n0)
    as (-> & -> & Hf' & Hv').
  { unfold set_outputs in Hsame. by injection Hsame as _ ? ? ? ?. }
  apply (Hok q n0 Hn0); congruence.
Qed.

Lemma GetOutput_constant_cache_ok math fuel this h v h' :
  constant_cache_ok h → GetOutput math fuel this h = Ok (v, h') →
  constant_cache_ok h'.
Proof.
  pose (R := λ a b : heap,
          cache_le a b ∧ (constant_cache_ok a → constant_cache_ok b)).
  assert (PreOrder R) as HR.
  { split.
    - intros a. split; [reflexivity | done].
    - intros a b c [? Hab] [? Hbc]. split; [by etransitivity | auto]. }
  intros Hok Hrun. enough (R h h') as [_ H] by auto.
  clear Hok. revert this h v h' Hrun.
  induction fuel as [|fuel IH]; intros this h v h' Hrun; simpl in Hrun;
    inv_run.
  destruct (cached_output_valid n) eqn:Hvalid; inv_run; [reflexivity|].
  match goal with
  | H : ?h1 !! this = Some ?n1 |- R _ (<[_ := set_cache ?w ?n1]> ?h1) =>
      rename H into Hn1, n1 into n', h1 into h0, w into v
  end.
  assert (R h h0 ∧ (function_pointer n = None → v = default_output n))
    as [[Hle Hok0] Hv].
  { destruct (function_pointer n) as [f|]; inv_run;
      [|split; [reflexivity | done]].
    split; [|done]. eapply (call_preserves R); [|done].
    intros p hz w hz' _ _ Hp. by eapply IH. }
  split; [by eapply cache_le_store|].
  intros Hok q m Hq Hm Hf. rewrite lookup_insert in Hq.
  case_decide; simplify_eq; [|by apply (Hok0 Hok q m)].
  destruct (cache_le_lookup _ _ _ _ Hle Hn) as (n'' & Hn'' & Hc).
  simplify_eq. destruct Hc as [->|[_ [w ->]]]; simpl in *; auto.
Qed.

Lemma api_reachable_constant_cache_ok h :
  api_reachable h → constant_cache_ok h.
Proof.
  induction 1 as [|h c u h' _ IH Hrun]; [intros p n Hp; done|].
  destruct c as [|v|f|fuel this m|math fuel this]; simpl in Hrun; inv_run.
  - eapply make_shared_constant_cache_ok; [| |eassumption]; done.
  - eapply make_shared_constant_cache_ok; [| |eassumption]; done.
  - eapply make_shared_constant_cache_ok; [| |eassumption]; done.
  - by eapply mutate_constant_cache_ok.
  - by eapply GetOutput_constant_cache_ok.
Qed.

(** C9: [FUNCTION_SET] has nineteen entries, indexed from 0.  Entry 0 is
    the null pointer, and a node holding it, in any heap a program can
    build, evaluates to its default; entries 1 to 18 are [Sum], [And],
    [AnyEq], [Not], [Gate], [Sin], [Cos], [Product], [Exp], [LessThan],
    [GreaterThan], [Max], [Min], [NegSum], [Square], [PosClamp],
    [NegClamp], [Sqrt], in this order. *)
Theorem FUNCTION_SET_layout math fuel this h n
    (Hreach : api_reachable h)
    (Hn : h !! this = Some n)
    (Hf : FUNCTION_SET !! 0 = Some (function_pointer n)) :
  length FUNCTION_SET = 19
  ∧ FUNCTION_SET !! 0 = Some None
  ∧ (∀ i f, i < 18 →
       [fn_Sum; fn_And; fn_AnyEq; fn_Not; fn_Gate; fn_Sin; fn_Cos; fn_Product;
        fn_Exp; fn_LessThan; fn_GreaterThan; fn_Max; fn_Min; fn_NegSum;
        fn_Square; fn_PosClamp; fn_NegClamp; fn_Sqrt] !! i = Some f →
       FUNCTION_SET !! S i = Some (Some f))
  ∧ ∃ h', GetOutput math (S fuel) this h = Ok (default_output n, h').
Proof.
  split_and!; [done | done | |].
  - intros i f Hi Hl.
    do 18 (destruct i as [|i]; [simpl in Hl; simplify_eq; reflexivity|]). lia.
  - simpl in Hf. simplify_eq. simpl. rewrite (bind_deref _ _ _ _ Hn). cbv beta.
    destruct (cached_output_valid n) eqn:Hv.
    + exists h.
      by rewrite (api_reachable_constant_cache_ok h Hreach this n).
    + eexists. rewrite <- Hf, bind_ret, (bind_deref _ _ _ _ Hn). done.
Qed.

Lemma FUNCTION_SET_layout_witness :
  ∃ h', GetOutput libm_identity 1 0 {[ 0 := GraphNode_of_double 9 ]} =
        Ok (9%float, h').
Proof.
  refine (proj2 (proj2 (proj2 (FUNCTION_SET_layout libm_identity 0 0
                   {[ 0 := GraphNode_of_double 9 ]}
                   (GraphNode_of_double 9) _ _ _)))); [|reflexivity..].
  apply (reach_call ∅ (CNewDouble 9) tt); [apply reach_empty|].
  vm_compute. reflexivity.
Defined.

(** * Further properties *)

(** ** Operators are functions of the values they read *)

Lemma bind_ext_Ok {A B} (m : M A) (k1 k2 : A → M B) h :
  (∀ a h1, m h = Ok (a, h1) → k1 a h1 = k2 a h1) →
  bind m k1 h = bind m k2 h.
Proof. intros H. unfold bind. destruct (m h) as [[a h1]| |]; auto. Qed.

Lemma std_transform_nil_inv {A B} (f : A → M B) l h h' :
  std_transform f l h = Ok ([], h') → l = [] ∧ h' = h.
Proof.
  intros Hrun. pose proof (std_transform_length _ _ _ _ _ Hrun) as Hlen.
  destruct l; [|done]. simpl in Hrun. by inv_run.
Qed.

Lemma call_kernel math eval f this h n :
  h !! this = Some n →
  call math eval f this h =
  (let* vals := std_transform eval (operator_reads f (inputs n)) in
   ret (operator_value math f (default_output n) vals)) h.
Proof.
  intros Hn.
  destruct f; simpl;
    unfold Sum, And, AnyEq, Not, Gate, Sin, Cos, Product, Exp, LessThan,
      GreaterThan, Max, Min, NegSum, Square, PosClamp, NegClamp, Sqrt, Sum,
      GetInputValues, GetInputValues_at;
    rewrite ?bind_assoc, (bind_deref _ _ _ _ Hn); cbv beta; try done.
  - (* AnyEq *)
    apply bind_ext_Ok. intros [|v0 rest] h1 Hrun; [|done].
    apply std_transform_nil_inv in Hrun as [_ ->]. simpl.
    by rewrite (GetDefaultOutput_eq _ _ _ Hn).
  - (* Not *)
    simpl max_element. cbv iota.
    destruct (inputs n) as [|p0 rest] eqn:Hin; simpl.
    + rewrite bind_ret. cbv beta iota. by rewrite (GetDefaultOutput_eq _ _ _ Hn).
    + unfold bind, at_index, ret. simpl. by destruct (eval p0 h) as [[v h1]| |].
  - (* Gate *)
    simpl max_element. cbv iota.
    destruct (inputs n) as [|p0 [|p1 rest]] eqn:Hin; simpl.
    + rewrite bind_ret. cbv beta iota. by rewrite (GetDefaultOutput_eq _ _ _ Hn).
    + rewrite bind_ret. cbv beta iota. by rewrite (GetDefaultOutput_eq _ _ _ Hn).
    + unfold bind, at_index, ret. simpl.
      destruct (eval p0 h) as [[v0 h1]| |]; [|done..].
      destruct (eval p1 h1) as [[v1 h2]| |]; [|done..]. simpl.
      by destruct (PrimFloat.eqb v1 0).
  - (* Max *)
    apply bind_ext_Ok. intros [|v0 rest] h1 Hrun; [|done].
    apply std_transform_nil_inv in Hrun as [_ ->]. simpl.
    by rewrite (GetDefaultOutput_eq _ _ _ Hn).
  - (* Min *)
    apply bind_ext_Ok. intros [|v0 rest] h1 Hrun; [|done].
    apply std_transform_nil_inv in Hrun as [_ ->]. simpl.
    by rewrite (GetDefaultOutput_eq _ _ _ Hn).
Qed.

(** X1: every operator first evaluates the inputs it reads, in order (all
    of them, except [Not]: input 0, and [Gate]: inputs 0 and 1, and none
    when these are missing), and then returns a function of the values
    obtained and of the default of its node; it touches the heap in no
    other way. *)
Theorem operators_read_then_compute math eval f this h n
    (Hn : h !! this = Some n) :
  call math eval f this h =
  (let* vals := std_transform eval (operator_reads f (inputs n)) in
   ret (operator_value math f (default_output n) vals)) h
  ∧ (∃ k, operator_reads f (inputs n) = take k (inputs n))
  ∧ (operator_reads f (inputs n) = [] →
     call math eval f this h = Ok (operator_value math f (default_output n) [], h)).
Proof.
  split_and!.
  - by apply call_kernel.
  - destruct f; simpl; try (exists (length (inputs n)); by rewrite firstn_all).
    + destruct (length (inputs n) <=? 0); [by exists 0 | by exists 1].
    + destruct (length (inputs n) <=? 1); [by exists 0 | by exists 2].
  - intros Hnil. rewrite (call_kernel _ _ _ _ _ _ Hn), Hnil. done.
Qed.

Lemma operators_read_then_compute_witness :
  call libm_identity (GetOutput libm_identity 1) fn_Not 2 heap_ABC =
  (let* vals := std_transform (GetOutput libm_identity 1) [0] in
   ret (operator_value libm_identity fn_Not 0 vals)) heap_ABC.
Proof.
  refine (proj1 (operators_read_then_compute libm_identity
                   (GetOutput libm_identity 1) fn_Not 2 heap_ABC
                   (mkGraphNode [0; 1] (Some fn_Sum) 0 [] 7 true) _)).
  reflexivity.
Defined.

(** ** What invalidation and evaluation write *)

(** X2: [RecursiveInvalidateCache] writes nothing but flags, and only
    clears them: a node is afterwards what it was, or what it was with
    [cached_output_valid] false.  No node appears or disappears; inputs,
    outputs, operator, default and the cached value itself are kept. *)
Theorem RecursiveInvalidateCache_only_clears_flags fuel this h u h'
    (Hrun : RecursiveInvalidateCache fuel this h = Ok (u, h')) :
  ∀ p, h' !! p = h !! p
       ∨ ∃ n, h !! p = Some n ∧ cached_output_valid n = true
              ∧ h' !! p = Some (set_cached_output_valid false n).
Proof.
  intros p. pose proof (RecursiveInvalidateCache_inval_le _ _ _ _ _ Hrun p) as Hp.
  destruct Hp as [n n' [->| ->]|]; [by left | | by left].
  destruct (cached_output_valid n) eqn:Hv; [right; eauto|].
  left. f_equal. destruct n; simpl in *; by subst.
Qed.

Lemma RecursiveInvalidateCache_only_clears_flags_witness :
  heap_after (RecursiveInvalidateCache 2 0) heap_ABC !! 1 = heap_ABC !! 1
  ∨ ∃ n, heap_ABC !! 1 = Some n ∧ cached_output_valid n = true
         ∧ heap_after (RecursiveInvalidateCache 2 0) heap_ABC !! 1 =
           Some (set_cached_output_valid false n).
Proof.
  apply (RecursiveInvalidateCache_only_clears_flags 2 0 heap_ABC tt).
  vm_compute. reflexivity.
Defined.

Lemma in_edge_cache_le h h' a b :
  cache_le h h' → in_edge h a b ↔ in_edge h' a b.
Proof.
  intros H. split; intros (n & Hn & Hb).
  - destruct (cache_le_lookup _ _ _ _ H Hn) as (n' & Hn' & Hc).
    exists n'. split; [done|]. by rewrite (cached_inputs _ _ Hc).
  - pose proof (H a) as Ha. rewrite Hn in Ha. inversion Ha as [n0 ? Hc Hn0|].
    exists n0. split; [done|]. by rewrite <- (cached_inputs _ _ Hc).
Qed.

Lemma rtc_in_edge_cache_le h h' a b :
  cache_le h h' → rtc (in_edge h) a b ↔ rtc (in_edge h') a b.
Proof.
  intros H. split; apply rtc_subrel; intros x y Hxy;
    by apply (in_edge_cache_le h h').
Qed.

Lemma GetOutput_frame math fuel this h v h' y :
  GetOutput math fuel this h = Ok (v, h') →
  ¬ rtc (in_edge h) this y → h' !! y = h !! y.
Proof.
  revert this h v h'. induction fuel as [|fuel IH]; intros this h v h' Hrun Hy;
    simpl in Hrun; inv_run.
  destruct (cached_output_valid n) eqn:Hvalid; inv_run; [done|].
  rewrite lookup_insert_ne by (intros ->; apply Hy; reflexivity).
  destruct (function_pointer n) as [f|]; inv_run; [|done].
  pose (R := λ h1 h2 : heap, cache_le h1 h2 ∧ h2 !! y = h1 !! y).
  assert (PreOrder R) as HR.
  { split.
    - intros h1. split; [reflexivity | done].
    - intros h1 h2 h3 [? H12] [? H23]. split; [by etransitivity | congruence]. }
  match goal with
  | H : call _ _ _ _ _ = Ok _ |- _ =>
      apply (call_preserves R) in H; [apply H|]
  end.
  intros p hz w hz' Hp [Hle _] Hp_run. split.
  - by apply GetOutput_cache_le in Hp_run as [? _].
  - eapply IH; [done|]. intros Hpy. apply Hy.
    apply rtc_l with p; [done|].
    by apply (rtc_in_edge_cache_le h hz).
Qed.

(** X3: [GetOutput] never changes an edge, an operator or a default, and
    never overwrites a valid cache: a node is afterwards what it was, or
    it had no valid cache and now holds one.  Nodes that are not reachable
    from the evaluated node along input edges are not written at all. *)
Theorem GetOutput_only_fills_caches math fuel this h v h'
    (Hrun : GetOutput math fuel this h = Ok (v, h')) :
  (∀ p, h' !! p = h !! p
        ∨ ∃ n w, h !! p = Some n ∧ cached_output_valid n = false
                 ∧ h' !! p = Some (set_cache w n))
  ∧ (∀ p, ¬ rtc (in_edge h) this p → h' !! p = h !! p).
Proof.
  split.
  - intros p. apply GetOutput_cache_le in Hrun as [Hle _].
    destruct (Hle p) as [n n' [->|(Hv & w & ->)]|]; [by left | | by left].
    right. eauto.
  - intros p Hp. by eapply GetOutput_frame.
Qed.

Lemma GetOutput_only_fills_caches_witness :
  heap_after (GetOutput libm_identity 1 0) (heap_after (build_ABC 2) ∅) !! 2 =
  heap_after (build_ABC 2) ∅ !! 2.
Proof.
  refine (proj2 (GetOutput_only_fills_caches libm_identity 1 0
                   (heap_after (build_ABC 2) ∅) 2
                   (heap_after (GetOutput libm_identity 1 0)
                               (heap_after (build_ABC 2) ∅)) _) 2 _).
  - vm_compute. reflexivity.
  - intros [[=]|(z & (n & Hn & Hz) & _)]%rtc_inv.
    vm_compute in Hn. simplify_eq. set_solver.
Defined.

(** ** Cycles *)

Section Closure.
Context {A : Type} (R : relation A).

Lemma tc_inv_l x y : tc R x y → ∃ z, R x z ∧ rtc R z y.
Proof.
  destruct 1 as [x y Hxy|x z y Hxz Hzy]; [by exists y|].
  exists z. split; [done | by apply tc_rtc].
Qed.

Lemma tc_cycle_next x : tc R x x → ∃ z, R x z ∧ tc R z z.
Proof.
  intros (z & Hxz & Hzx)%tc_inv_l. exists z. split; [done|].
  eapply tc_rtc_l; [done | by apply tc_once].
Qed.

(** Every edge of a cycle starts at a node that lies on a cycle. *)
Lemma tc_cycle_edges a b :
  tc R a b → rtc R b a → tc (λ x y, R x y ∧ tc R x x) a b.
Proof.
  induction 1 as [x y Hxy|x y z Hxy Hyz IH]; intros Hback.
  - apply tc_once. split; [done|]. eapply tc_rtc_r; [by apply tc_once | done].
  - eapply tc_l.
    + split; [done|]. eapply tc_rtc_r; [|done]. by eapply tc_l.
    + apply IH. eapply rtc_r; [done | done].
Qed.
End Closure.

Lemma tc_out_edge_inval_le h h' a b :
  inval_le h h' → tc (out_edge h) a b → tc (out_edge h') a b.
Proof.
  intros H. induction 1 as [x y Hxy|x y z Hxy _ IH];
    apply (out_edge_inval_le h h') in Hxy; try done;
    [by apply tc_once | by eapply tc_l].
Qed.

Lemma RecursiveInvalidateCache_cycle fuel this h r :
  tc (out_edge h) this this → RecursiveInvalidateCache fuel this h ≠ Ok r.
Proof.
  revert this h r. induction fuel as [|fuel IH]; intros this h [u h'] Hcyc Hrun;
    simpl in Hrun; inv_run.
  pose proof (inval_le_store _ _ _ Hn) as Hst.
  destruct (tc_cycle_next _ _ Hcyc) as (z & (n0 & Hn0 & Hz) & Hzcyc).
  simplify_eq.
  assert (∀ z hz hz' w, z ∈ outputs n →
            inval_le (<[this := set_cached_output_valid false n]> h) hz →
            RecursiveInvalidateCache fuel z hz = Ok (w, hz') → inval_le hz hz')
    as Hpres.
  { intros ? hz hz' w _ _. apply RecursiveInvalidateCache_inval_le. }
  destruct (for_each_elem inval_le _ _ _ _ _ Hpres Hrun z Hz)
    as (hz & hz' & w & Hle1 & Hz_run & _).
  eapply (IH z hz); [|done].
  eapply tc_out_edge_inval_le; [|done]. by etransitivity.
Qed.

(** [this->AddInput(node)], once it has returned, has listed [this] in the
    outputs of [node]. *)
Lemma AddInput_registers_output fuel this node h u h' :
  AddInput fuel this node h = Ok (u, h') → out_edge h' node this.
Proof.
  intros Hrun. unfold AddInput, AddOutput in Hrun. inv_run.
  match goal with
  | H : RecursiveInvalidateCache _ _ _ = Ok _ |- _ =>
      apply RecursiveInvalidateCache_inval_le in H;
      apply (out_edge_inval_le _ _ node this H)
  end.
  eexists. split; [apply lookup_insert_eq|].
  simpl. apply elem_of_app. right. by apply list_elem_of_singleton.
Qed.

(** X4: invalidation has no cycle protection.  On a node that lies on a
    cycle of output edges [RecursiveInvalidateCache] never returns,
    whatever the recursion depth allowed.  So [x->AddInput(x)] never
    returns; [x->AddInput(y)] never returns when [y] is already listed in
    the outputs of [x]; and once [y->AddInput(x)] has returned,
    [x->AddInput(y)] never returns. *)
Theorem invalidation_never_returns_on_cycle fuel :
  (∀ this h r, tc (out_edge h) this this →
               RecursiveInvalidateCache fuel this h ≠ Ok r)
  ∧ (∀ this h r, AddInput fuel this this h ≠ Ok r)
  ∧ (∀ this node h r, out_edge h this node →
                      AddInput fuel this node h ≠ Ok r)
  ∧ (∀ fuel0 this node h u h' r,
       AddInput fuel0 node this h = Ok (u, h') →
       AddInput fuel this node h' ≠ Ok r).
Proof.
  assert (∀ this node h r,
            this = node ∨ out_edge h this node →
            AddInput fuel this node h ≠ Ok r) as Hadd.
  { intros this node h [u h'] Hedge Hrun. unfold AddInput, AddOutput in Hrun.
    inv_run.
    eapply RecursiveInvalidateCache_cycle; [|eassumption].
    match goal with
    | |- tc (out_edge ?hm) _ _ =>
        assert (out_edge hm node this) as Hback
          by (eexists; split;
              [apply lookup_insert_eq
              |simpl; apply elem_of_app; right; by apply list_elem_of_singleton])
    end.
    destruct Hedge as [Heq|(m & Hm & Hnode)];
      [subst node; by apply tc_once|].
    eapply tc_l; [|by apply tc_once].
    destruct (decide (node = this)) as [Heq|Hne].
    + subst node. eexists. split; [apply lookup_insert_eq | simpl; set_solver].
    + eexists. split; [by rewrite lookup_insert_ne, lookup_insert_eq|].
      simplify_eq. simpl. set_solver. }
  split_and!.
  - intros this h r. apply RecursiveInvalidateCache_cycle.
  - intros this h r. apply Hadd. by left.
  - intros this node h r Hedge. apply Hadd. by right.
  - intros fuel0 this node h u h' r Hfirst. apply Hadd. right.
    by eapply AddInput_registers_output.
Qed.

Lemma invalidation_never_returns_on_cycle_witness :
  AddInput 3 0 1 (heap_after (AddInput 1 1 0) heap_AB) ≠ Ok (tt, heap_AB).
Proof.
  refine (proj2 (proj2 (proj2 (invalidation_never_returns_on_cycle 3)))
            1 0 1 heap_AB tt (heap_after (AddInput 1 1 0) heap_AB)
            (tt, heap_AB) _).
  vm_compute. reflexivity.
Defined.

Lemma GetOutput_miss math fuel this h n :
  h !! this = Some n → cached_output_valid n = false →
  GetOutput math (S fuel) this h =
  (let* vals := std_transform (GetOutput math fuel) (node_reads n) in
   let* n' := deref this in
   store this (set_cache (node_value math n vals) n') ;;
   ret (node_value math n vals)) h.
Proof.
  intros Hn Hv. simpl. rewrite (bind_deref _ _ _ _ Hn). cbv beta. rewrite Hv.
  unfold node_reads, node_value. destruct (function_pointer n) as [f|].
  - unfold bind at 1. rewrite (call_kernel _ _ _ _ _ _ Hn).
    unfold bind. by destruct (std_transform _ _ h) as [[vals h0]| |].
  - done.
Qed.

Lemma std_transform_elem (R : heap → heap → Prop) `{!PreOrder R}
    {A B} (f : A → M B) l h vs h' :
  (∀ z hz hz' w, z ∈ l → R h hz → f z hz = Ok (w, hz') → R hz hz') →
  std_transform f l h = Ok (vs, h') →
  ∀ j z, l !! j = Some z →
         ∃ v hz hz', vs !! j = Some v ∧ R h hz ∧ f z hz = Ok (v, hz') ∧ R hz' h'.
Proof.
  revert h vs. induction l as [|x l IH]; intros h vs Hf Hrun j z Hj;
    simpl in Hrun; [done|]. inv_run.
  assert (R h h0) as Hx by (eapply Hf; [left | reflexivity | done]).
  assert (∀ z hz hz' w, z ∈ l → R h0 hz → f z hz = Ok (w, hz') → R hz hz')
    as Hf'.
  { intros z' hz hz' w Hz' Hhz. eapply Hf; [by right | by transitivity h0]. }
  destruct j as [|j]; simpl in Hj.
  - simplify_eq. exists a, h, h0. split_and!; [done | reflexivity | done |].
    eapply (std_transform_preserves R); done.
  - edestruct IH as (v & hz & hz' & Hv & HR1 & Hz & HR2);
      [exact Hf' | done | done |].
    exists v, hz, hz'. split_and!; [done | by transitivity h0 | done | done].
Qed.

(** Nodes on a cycle of [pending] edges and their edges survive as long as
    those nodes are not written. *)
Lemma pending_cycle_kept h h' c :
  (∀ d, tc (pending h) d d → h' !! d = h !! d) →
  tc (pending h) c c → tc (pending h') c c.
Proof.
  intros Hkept Hc.
  assert (∀ a b, tc (λ x y, pending h x y ∧ tc (pending h) x x) a b →
                 tc (pending h') a b) as Hsub.
  { induction 1 as [x y Hxy|x y z Hxy _ IH];
      destruct Hxy as [(n & Hn & Hv & Hp) Hx].
    - apply tc_once. exists n. by rewrite (Hkept x Hx).
    - eapply tc_l; [|done]. exists n. by rewrite (Hkept x Hx). }
  apply Hsub, tc_cycle_edges; [done | reflexivity].
Qed.

Lemma GetOutput_pending_cycle math fuel this h v h' :
  GetOutput math fuel this h = Ok (v, h') →
  ¬ tc (pending h) this this
  ∧ ∀ c, tc (pending h) c c → h' !! c = h !! c.
Proof.
  pose (R := λ h1 h2 : heap, ∀ c, tc (pending h1) c c → h2 !! c = h1 !! c).
  assert (PreOrder R) as HR.
  { split.
    - by intros h1 c _.
    - intros h1 h2 h3 H12 H23 c Hc. rewrite (H23 c), (H12 c); [done..|].
      by eapply pending_cycle_kept. }
  revert this h v h'. induction fuel as [|fuel IH]; intros this h v h' Hrun;
    [done|].
  destruct (h !! this) as [n|] eqn:Hn;
    [|simpl in Hrun; unfold bind, deref in Hrun; by rewrite Hn in Hrun].
  destruct (cached_output_valid n) eqn:Hvalid.
  { simpl in Hrun. rewrite (bind_deref _ _ _ _ Hn) in Hrun. cbv beta in Hrun.
    rewrite Hvalid in Hrun. inv_run. split; [|done].
    intros (z & (n0 & Hn0 & Hinv & _) & _)%tc_cycle_next. congruence. }
  rewrite (GetOutput_miss _ _ _ _ _ Hn Hvalid) in Hrun. inv_run.
  match goal with
  | H : std_transform _ _ _ = Ok (?vs, ?h1) |- _ =>
      rename H into Hreads, vs into vals, h1 into h0
  end.
  assert (∀ z hz hz' w, z ∈ node_reads n → R h hz →
            GetOutput math fuel z hz = Ok (w, hz') → R hz hz') as Hpres.
  { intros z hz hz' w _ _ Hz. by apply IH in Hz as [_ ?]. }
  assert (¬ tc (pending h) this this) as Hnot.
  { intros Hcyc.
    destruct (tc_cycle_next _ _ Hcyc) as (z & (nz & Hnz & _ & Hz) & Hzcyc).
    simplify_eq. apply list_elem_of_lookup in Hz as [j Hj].
    destruct (std_transform_elem R _ _ _ _ _ Hpres Hreads j z Hj)
      as (w & hz & hz' & _ & Hle & Hz_run & _).
    apply IH in Hz_run as [Hno _]. apply Hno.
    by eapply pending_cycle_kept. }
  split; [done|]. intros c Hc.
  rewrite lookup_insert_ne by (by intros ->).
  by apply (std_transform_preserves R _ _ _ _ _ Hpres Hreads).
Qed.

(** X5: evaluation has no cycle protection either.  [GetOutput] never
    returns on a node that waits for itself: one without a valid cache
    from which a chain of nodes without valid caches, each evaluating the
    next as one of the inputs its operator reads, leads back to it. *)
Theorem GetOutput_never_returns_on_cycle math fuel this h r
    (Hcyc : tc (pending h) this this) :
  GetOutput math fuel this h ≠ Ok r.
Proof.
  destruct r as [v h']. intros Hrun.
  by apply GetOutput_pending_cycle in Hrun as [Hno _].
Qed.

Lemma GetOutput_never_returns_on_cycle_witness :
  GetOutput libm_identity 5 0
    {[ 0 := mkGraphNode [0] (Some fn_Sum) 0 [0] 0 false ]}
  ≠ Ok (0%float, ∅).
Proof.
  apply GetOutput_never_returns_on_cycle, tc_once.
  exists (mkGraphNode [0] (Some fn_Sum) 0 [0] 0 false).
  split_and!; [reflexivity | reflexivity | simpl; set_solver].
Defined.

(** ** More of the operator catalog *)

Lemma GetInputValues_kernel eval this h n :
  h !! this = Some n →
  GetInputValues eval this h = std_transform eval (inputs n) h.
Proof. intros Hn. unfold GetInputValues. by rewrite (bind_deref _ _ _ _ Hn). Qed.

Lemma call_of_values math eval f this h n vals h' :
  h !! this = Some n →
  operator_reads f (inputs n) = inputs n →
  GetInputValues eval this h = Ok (vals, h') →
  call math eval f this h = Ok (operator_value math f (default_output n) vals, h').
Proof.
  intros Hn Hreads Hvals. rewrite (GetInputValues_kernel _ _ _ _ Hn) in Hvals.
  rewrite (call_kernel _ _ _ _ _ _ Hn), Hreads. unfold bind. by rewrite Hvals.
Qed.

(** X6: [Sin], [Cos], [Exp], [Square], [PosClamp], [NegClamp] and [Sqrt]
    are the reduction of [Sum] on the transformed input values: the sum
    of 0 and all transformed values, each once and in order, under the
    grouping of [std::reduce].  So they are 0 on a node without inputs,
    whatever its default; [NegSum] is the negated [Sum]. *)
Theorem elementwise_operators_sum_transformed math eval f g this h n vals h'
    (Hn : h !! this = Some n)
    (Hg : elementwise math f = Some g)
    (Hvals : GetInputValues eval this h = Ok (vals, h')) :
  call math eval f this h =
  Ok (std_reduce PrimFloat.add 0%float (map g vals), h')
  ∧ grouped PrimFloat.add (0%float :: map g vals)
            (std_reduce PrimFloat.add 0%float (map g vals))
  ∧ (vals = [] → call math eval f this h = Ok (0%float, h'))
  ∧ Sum eval this h = Ok (std_reduce PrimFloat.add 0%float vals, h')
  ∧ NegSum eval this h =
    Ok (PrimFloat.opp (std_reduce PrimFloat.add 0%float vals), h').
Proof.
  assert (call math eval f this h =
          Ok (std_reduce PrimFloat.add 0%float (map g vals), h')) as Hcall.
  { rewrite (call_of_values math eval f this h n vals h' Hn); [|by destruct f|done].
    f_equal. f_equal.
    destruct f; simpl in Hg; simplify_eq; simpl;
      apply std_transform_reduce_map. }
  split_and!; [done | apply std_reduce_grouped | | |].
  - intros ->. by rewrite Hcall.
  - unfold Sum, bind. by rewrite Hvals.
  - unfold NegSum, Sum, bind. by rewrite Hvals.
Qed.

Lemma elementwise_operators_sum_transformed_witness :
  call libm_identity (GetOutput libm_identity 1) fn_Square 0 heap_Square =
  Ok (10000000000000002%float,
      heap_after (GetInputValues (GetOutput libm_identity 1) 0) heap_Square).
Proof.
  refine (proj1 (elementwise_operators_sum_transformed libm_identity
                   (GetOutput libm_identity 1) fn_Square
                   (λ val, PrimFloat.mul val val) 0 heap_Square
                   (mkGraphNode [1; 2; 3; 4] (Some fn_Square) 0 [] 0 false)
                   [100000000; 1; 1; 1]%float
                   (heap_after (GetInputValues (GetOutput libm_identity 1) 0)
                               heap_Square)
                   _ _ _)); vm_compute; reflexivity.
Defined.

Lemma any_of_true {A} (p : A → bool) l :
  any_of p l = true ↔ ∃ x, x ∈ l ∧ p x = true.
Proof.
  unfold any_of. rewrite existsb_exists. split; intros (x & Hx & Hp);
    exists x; (split; [by apply list_elem_of_In | done]).
Qed.

(** X7: [AnyEq] returns the default on a node without inputs, 0 on a
    single input, and otherwise 1 exactly when a later input value
    compares equal to the first. *)
Theorem AnyEq_compares_with_first eval this h n vals h'
    (Hn : h !! this = Some n)
    (Hvals : GetInputValues eval this h = Ok (vals, h')) :
  (vals = [] → AnyEq eval this h = Ok (default_output n, h))
  ∧ (∀ v0, vals = [v0] → AnyEq eval this h = Ok (0%float, h'))
  ∧ (∀ v0 rest, vals = v0 :: rest →
       ∃ r, AnyEq eval this h = Ok (r, h') ∧ (r = 1%float ∨ r = 0%float)
            ∧ (r = 1%float ↔ ∃ vi, vi ∈ rest ∧ PrimFloat.eqb v0 vi = true)).
Proof.
  split_and!.
  - intros ->. rewrite (GetInputValues_kernel _ _ _ _ Hn) in Hvals.
    apply std_transform_nil_inv in Hvals as [Hin ->].
    unfold AnyEq, bind. rewrite (GetInputValues_kernel _ _ _ _ Hn), Hin. simpl.
    by rewrite (GetDefaultOutput_eq _ _ _ Hn).
  - intros v0 ->. unfold AnyEq, bind. by rewrite Hvals.
  - intros v0 rest ->. unfold AnyEq, bind. rewrite Hvals.
    destruct (any_of (λ vi, PrimFloat.eqb v0 vi) rest) eqn:Hany.
    + exists 1%float. split_and!; [done | by left |]. split; [|done].
      intros _. by apply any_of_true.
    + exists 0%float. split_and!; [done | by right |]. split.
      * intros H. symmetry in H. by apply float_one_neq_zero in H.
      * intros Hex.
        assert (any_of (λ vi, PrimFloat.eqb v0 vi) rest = true) as Ht
          by (by apply any_of_true).
        congruence.
Qed.

Lemma AnyEq_compares_with_first_witness :
  AnyEq (GetOutput libm_identity 1) 0 heap_AnyEq =
  Ok (1%float, heap_after (GetInputValues (GetOutput libm_identity 1) 0) heap_AnyEq).
Proof.
  destruct (proj2 (proj2
              (AnyEq_compares_with_first (GetOutput libm_identity 1) 0 heap_AnyEq
                 (mkGraphNode [1; 2; 3] (Some fn_AnyEq) 0 [] 0 false)
                 [3; 5; 3]%float
                 (heap_after (GetInputValues (GetOutput libm_identity 1) 0)
                             heap_AnyEq)
                 ltac:(vm_compute; reflexivity) ltac:(vm_compute; reflexivity)))
              3%float [5; 3]%float eq_refl) as (r & Hr & _ & Hiff).
  assert (r = 1%float) as <-; [|exact Hr].
  apply Hiff. exists 3%float. split; [|reflexivity].
  apply elem_of_cons. right. apply elem_of_cons. by left.
Defined.

(** X8: on a node with at least one input [Not] evaluates input 0 and no
    other, and returns 1 when its value compares equal to 0 and 0
    otherwise; on a node with at least two inputs [Gate] evaluates input 0
    and then input 1, both in every case and no other, and returns the
    first value when the second is not 0 and 0 otherwise. *)
Theorem Not_Gate_evaluate_their_inputs_only eval this h n p0 rest
    (Hn : h !! this = Some n)
    (Hin : inputs n = p0 :: rest) :
  Not eval this h =
  (let* v0 := eval p0 in
   ret (if PrimFloat.eqb v0 0 then 1%float else 0%float)) h
  ∧ (∀ p1 rest', rest = p1 :: rest' →
       Gate eval this h =
       (let* v0 := eval p0 in
        let* v1 := eval p1 in
        ret (if PrimFloat.eqb v1 0 then 0%float else v0)) h).
Proof.
  split.
  - change (Not eval this h) with (call libm_identity eval fn_Not this h).
    rewrite (call_kernel _ _ _ _ _ _ Hn), Hin. simpl.
    unfold bind, ret. by destruct (eval p0 h) as [[v0 h1]| |].
  - intros p1 rest' ->.
    change (Gate eval this h) with (call libm_identity eval fn_Gate this h).
    rewrite (call_kernel _ _ _ _ _ _ Hn), Hin. simpl.
    unfold bind, ret. destruct (eval p0 h) as [[v0 h1]| |]; [|done..].
    destruct (eval p1 h1) as [[v1 h2]| |]; [|done..].
    by destruct (PrimFloat.eqb v1 0).
Qed.

Lemma Not_Gate_evaluate_their_inputs_only_witness :
  Not (GetOutput libm_identity 1) 2 (heap_after (build_ABC 2) ∅) =
  (let* v0 := GetOutput libm_identity 1 0 in
   ret (if PrimFloat.eqb v0 0 then 1%float else 0%float))
    (heap_after (build_ABC 2) ∅).
Proof.
  refine (proj1 (Not_Gate_evaluate_their_inputs_only
                   (GetOutput libm_identity 1) 2 (heap_after (build_ABC 2) ∅)
                   (mkGraphNode [0; 1] (Some fn_Sum) 0 [] 0 false) 0 [1] _ _));
    reflexivity.
Defined.

Lemma is_sorted_reverse {A} (comp : A → A → bool) l :
  is_sorted (λ a b, comp b a) l = is_sorted comp (reverse l).
Proof.
  apply eq_iff_eq_true. rewrite !is_sorted_true. split.
  - intros H i a b Ha Hb.
    pose proof (lookup_lt_Some _ _ _ Hb) as Hlt. rewrite length_reverse in Hlt.
    rewrite reverse_lookup in Ha by lia. rewrite reverse_lookup in Hb by lia.
    apply (H (length l - S (S i)) b a); [done|].
    by replace (S (length l - S (S i))) with (length l - S i) by lia.
  - intros H i a b Ha Hb.
    pose proof (lookup_lt_Some _ _ _ Hb) as Hlt.
    apply (H (length l - S (S i)) b a).
    + rewrite reverse_lookup by lia.
      by replace (length l - S (length l - S (S i))) with (S i) by lia.
    + rewrite reverse_lookup by lia.
      by replace (length l - S (S (length l - S (S i)))) with i by lia.
Qed.

(** X9: [GreaterThan] is 1 exactly when no input value is greater than
    its predecessor, in particular on at most one input; it is [LessThan]
    of the input values in reverse order. *)
Theorem GreaterThan_is_LessThan_reversed eval this h vals h'
    (Hvals : GetInputValues eval this h = Ok (vals, h')) :
  GreaterThan eval this h = Ok (double_of_bool (is_sorted less (reverse vals)), h')
  ∧ (∃ r, GreaterThan eval this h = Ok (r, h') ∧ (r = 1%float ∨ r = 0%float)
          ∧ (r = 1%float ↔
             ∀ i a b, vals !! i = Some a → vals !! S i = Some b →
                      PrimFloat.ltb a b = false)
          ∧ (length vals ≤ 1 → r = 1%float)).
Proof.
  split.
  - unfold GreaterThan, bind. rewrite Hvals. unfold greater.
    by rewrite (is_sorted_reverse less).
  - unfold GreaterThan, bind. rewrite Hvals.
    pose proof (is_sorted_true greater vals) as Hs. unfold greater in Hs at 2.
    destruct (is_sorted greater vals) eqn:Hsorted.
    + exists 1%float. split_and!; [done | by left | | done]. split; [|done].
      intros _. by apply Hs.
    + exists 0%float. split_and!; [done | by right | |].
      * split.
        -- intros H. symmetry in H. by apply float_one_neq_zero in H.
        -- intros Hall%Hs. congruence.
      * intros Hlen. destruct vals as [|v [|? ?]]; simpl in *; [done | done | lia].
Qed.

Lemma GreaterThan_is_LessThan_reversed_witness :
  GreaterThan (GetOutput libm_identity 1) 2 (heap_after (build_ABC 2) ∅) =
  Ok (0%float,
      heap_after (GetInputValues (GetOutput libm_identity 1) 2)
                 (heap_after (build_ABC 2) ∅)).
Proof.
  refine (proj1 (GreaterThan_is_LessThan_reversed (GetOutput libm_identity 1) 2
                   (heap_after (build_ABC 2) ∅) [2; 5]%float _ _)).
  vm_compute. reflexivity.
Defined.

(** [std::max_element] and [std::min_element] return an element of the
    range, and an extremal one when the comparison is a strict weak order
    on the elements of the range. *)
Lemma max_element_from_in {A} (lt : A → A → bool) first l :
  max_element_from lt first l ∈ first :: l.
Proof.
  revert first. induction l as [|x l IH]; intros first; simpl; [left|].
  specialize (IH (if lt first x then x else first)).
  apply elem_of_cons in IH as [->|IH]; [|by do 2 right].
  destruct (lt first x); [right; left | left].
Qed.

Lemma min_element_from_flip {A} (lt : A → A → bool) first l :
  min_element_from lt first l = max_element_from (λ a b, lt b a) first l.
Proof. revert first. induction l as [|x l IH]; intros first; simpl; auto. Qed.

Lemma strict_weak_on_flip {A} (lt : A → A → bool) l :
  strict_weak_on lt l → strict_weak_on (λ a b, lt b a) l.
Proof.
  intros (Hirr & Htr & Hneg). split_and!; [done | |].
  - intros a b c Ha Hb Hc Hab Hbc. by apply (Htr c b a).
  - intros a b c Ha Hb Hc Hab Hbc. by apply (Hneg c b a).
Qed.

Lemma max_element_from_max {A} (lt : A → A → bool) S first l :
  strict_weak_on lt S → first ∈ S → (∀ x, x ∈ l → x ∈ S) →
  ∀ x, x ∈ first :: l → lt (max_element_from lt first l) x = false.
Proof.
  intros (Hirr & Htr & Hneg). revert first.
  induction l as [|y l IH]; intros first Hfirst Hl x Hx; simpl.
  - apply list_elem_of_singleton in Hx as ->. by apply Hirr.
  - set (first' := if lt first y then y else first).
    assert (first' ∈ S) as Hfirst'.
    { unfold first'. destruct (lt first y); [apply Hl; left | done]. }
    assert (∀ z, z ∈ l → z ∈ S) as Hl' by (intros z Hz; apply Hl; by right).
    specialize (IH first' Hfirst' Hl').
    set (m := max_element_from lt first' l) in *.
    assert (m ∈ S) as Hm.
    { pose proof (max_element_from_in lt first' l) as Hin. fold m in Hin.
      apply elem_of_cons in Hin as [->|Hin]; auto. }
    assert (y ∈ S) as Hy by (apply Hl; left).
    pose proof (IH first' ltac:(left)) as Hmf. unfold first' in Hmf.
    apply elem_of_cons in Hx as [->|[->|Hx]%elem_of_cons];
      [| |apply IH; by right].
    + destruct (lt first y) eqn:Hfy; [|done].
      destruct (lt m first) eqn:Hmfirst; [|done].
      by rewrite (Htr m first y Hm Hfirst Hy Hmfirst Hfy) in Hmf.
    + destruct (lt first y) eqn:Hfy; [done|].
      by apply (Hneg m first y).
Qed.

(** X10: [Max] and [Min] return the default on a node without inputs and
    otherwise one of the input values; when [<] is a strict weak order on
    the input values (no NaN among them), no input value is greater than
    the result of [Max] and none is less than the result of [Min]. *)
Theorem Max_Min_return_an_extremal_input eval this h n vals h'
    (Hn : h !! this = Some n)
    (Hvals : GetInputValues eval this h = Ok (vals, h')) :
  (vals = [] →
   Max eval this h = Ok (default_output n, h)
   ∧ Min eval this h = Ok (default_output n, h))
  ∧ (vals ≠ [] →
     ∃ mx mn, Max eval this h = Ok (mx, h') ∧ Min eval this h = Ok (mn, h')
              ∧ mx ∈ vals ∧ mn ∈ vals
              ∧ (strict_weak_on PrimFloat.ltb vals →
                 ∀ v, v ∈ vals →
                      PrimFloat.ltb mx v = false ∧ PrimFloat.ltb v mn = false)).
Proof.
  split.
  - intros ->. rewrite (GetInputValues_kernel _ _ _ _ Hn) in Hvals.
    apply std_transform_nil_inv in Hvals as [Hin ->].
    unfold Max, Min, bind. rewrite (GetInputValues_kernel _ _ _ _ Hn), Hin.
    simpl. by rewrite (GetDefaultOutput_eq _ _ _ Hn).
  - intros Hne. destruct vals as [|v0 vals]; [done|].
    exists (max_element_from PrimFloat.ltb v0 vals),
           (min_element_from PrimFloat.ltb v0 vals).
    split_and!.
    + unfold Max, bind. by rewrite Hvals.
    + unfold Min, bind. by rewrite Hvals.
    + apply max_element_from_in.
    + rewrite min_element_from_flip. apply max_element_from_in.
    + intros Hswo v Hv. split.
      * apply (max_element_from_max PrimFloat.ltb (v0 :: vals));
          [done | left | by right | done].
      * rewrite min_element_from_flip.
        apply (max_element_from_max (λ a b, PrimFloat.ltb b a) (v0 :: vals));
          [by apply strict_weak_on_flip | left | by right | done].
Qed.

(** The strict-weak-order condition holds on concrete values. *)
Example strict_weak_on_2_5_3 : strict_weak_on PrimFloat.ltb [2; 5; 3]%float.
Proof.
  split_and!.
  - intros a Ha. set_unfold. destruct_or!; subst; reflexivity.
  - intros a b c Ha Hb Hc. set_unfold.
    destruct_or!; subst; vm_compute; congruence.
  - intros a b c Ha Hb Hc. set_unfold.
    destruct_or!; subst; vm_compute; congruence.
Qed.

Lemma Max_Min_return_an_extremal_input_witness :
  Max (GetOutput libm_identity 1) 0 heap_Max =
  Ok (5%float, heap_after (GetInputValues (GetOutput libm_identity 1) 0) heap_Max)
  ∧ Min (GetOutput libm_identity 1) 0 heap_Max =
    Ok (2%float, heap_after (GetInputValues (GetOutput libm_identity 1) 0) heap_Max)
  ∧ Forall (λ v, PrimFloat.ltb 5 v = false ∧ PrimFloat.ltb v 2 = false)
           [2; 5; 3]%float.
Proof.
  destruct (proj2
              (Max_Min_return_an_extremal_input (GetOutput libm_identity 1) 0
                 heap_Max (mkGraphNode [1; 2; 3] (Some fn_Max) 0 [] 0 false)
                 [2; 5; 3]%float
                 (heap_after (GetInputValues (GetOutput libm_identity 1) 0)
                             heap_Max)
                 ltac:(vm_compute; reflexivity) ltac:(vm_compute; reflexivity))
              ltac:(discriminate))
    as (mx & mn & HMax & HMin & _ & _ & Hext).
  set (h' := heap_after (GetInputValues (GetOutput libm_identity 1) 0) heap_Max)
    in *.
  assert (Max (GetOutput libm_identity 1) 0 heap_Max = Ok (5%float, h')) as EMax
    by (vm_compute; reflexivity).
  assert (Min (GetOutput libm_identity 1) 0 heap_Max = Ok (2%float, h')) as EMin
    by (vm_compute; reflexivity).
  assert (mx = 5%float) as -> by congruence.
  assert (mn = 2%float) as -> by congruence.
  split_and!; [done | done |].
  apply Forall_forall. intros v Hv. by apply Hext; [apply strict_weak_on_2_5_3|].
Defined.

(** ** Reading inputs and defaults *)

(** X11: [GetInputValues()] evaluates the inputs in order: a run that
    returns gives one value per input, in input order, and each value is
    the output the input holds in its cache afterwards; the inputs, the
    operator and the default of the node are as before.  On a closed
    acyclic input graph the run returns. *)
Theorem GetInputValues_one_value_per_input math fuel this h n
    (Hn : h !! this = Some n) :
  (∀ vals h', GetInputValues (GetOutput math fuel) this h = Ok (vals, h') →
     length vals = length (inputs n)
     ∧ (∀ j p, inputs n !! j = Some p →
          ∃ v, vals !! j = Some v ∧ GetOutput math 1 p h' = Ok (v, h'))
     ∧ ∃ n', h' !! this = Some n' ∧ inputs n' = inputs n
             ∧ function_pointer n' = function_pointer n
             ∧ default_output n' = default_output n)
  ∧ (∀ rk, ranked inputs rk h → rk this ≤ fuel →
     ∃ vals h', GetInputValues (GetOutput math fuel) this h = Ok (vals, h')).
Proof.
  split.
  - intros vals h' Hrun. rewrite (GetInputValues_kernel _ _ _ _ Hn) in Hrun.
    assert (∀ z hz hz' w, z ∈ inputs n → cache_le h hz →
              GetOutput math fuel z hz = Ok (w, hz') → cache_le hz hz') as Hpres.
    { intros z hz hz' w _ _ Hz. by apply GetOutput_cache_le in Hz as [? _]. }
    split_and!.
    + by eapply std_transform_length.
    + intros j p Hj.
      destruct (std_transform_lookup cache_le _ _ _ _ _ Hpres Hrun j p Hj)
        as (v & hz & hz' & Hv & Hz & Hle).
      exists v. split; [done|].
      apply GetOutput_cache_le in Hz as (_ & n' & Hn' & Hvalid & Hc).
      pose proof (cache_le_valid _ _ _ _ Hle Hn' Hvalid) as Hp'.
      simpl. rewrite (bind_deref _ _ _ _ Hp'). cbv beta. by rewrite Hvalid, Hc.
    + pose proof (std_transform_preserves cache_le _ _ _ _ _ Hpres Hrun) as Hle.
      destruct (cache_le_lookup _ _ _ _ Hle Hn) as (n' & Hn' & Hc).
      exists n'. split; [done|]. by destruct Hc as [->|[_ [w ->]]].
  - intros rk Hrk Hfuel.
    destruct (GetInputValues_total cache_le (GetOutput math fuel) this h n Hn)
      as (vals & h' & Hrun & _); [|by eauto].
    intros p hz (n0 & Hn0 & Hp) Hz. simplify_eq.
    destruct (Hrk this n p Hn Hp) as [[m Hm] Hplt].
    apply (GetOutput_total math rk);
      [|by destruct (cache_le_lookup _ _ _ _ Hz Hm) as (? & -> & _)|lia].
    eapply (ranked_Forall2 cached); [apply cached_inputs | done | done].
Qed.

Lemma GetInputValues_one_value_per_input_witness :
  ∃ vals h', GetInputValues (GetOutput libm_identity 1) 2
               (heap_after (build_ABC 2) ∅) = Ok (vals, h').
Proof.
  refine (proj2 (GetInputValues_one_value_per_input libm_identity 1 2
                   (heap_after (build_ABC 2) ∅)
                   (mkGraphNode [0; 1] (Some fn_Sum) 0 [] 0 false) _)
                (λ a, if a =? 2 then 1 else 0) _ _).
  - reflexivity.
  - apply rankedb_sound. vm_compute. reflexivity.
  - simpl. lia.
Defined.

(** X12: after [SetDefaultOutput(value)] has returned, [GetDefaultOutput]
    gives [value] itself, or, when the old default compared equal to
    [value], the old default with the heap untouched (writing -0 over +0
    leaves +0). *)
Theorem SetDefaultOutput_then_GetDefaultOutput fuel this value h u h'
    (Hrun : SetDefaultOutput fuel this value h = Ok (u, h')) :
  ∃ d, GetDefaultOutput this h' = Ok (d, h')
       ∧ (d = value ∨ (PrimFloat.eqb d value = true ∧ h' = h)).
Proof.
  unfold SetDefaultOutput in Hrun. inv_run.
  destruct (PrimFloat.eqb (default_output n) value) eqn:Heq; simpl in Hrun;
    inv_run.
  - exists (default_output n). split; [by apply GetDefaultOutput_eq | by right].
  - apply RecursiveInvalidateCache_inval_le in Hrun.
    destruct (inval_le_lookup _ _ this (set_default_output value n) Hrun)
      as (n' & Hn' & Hi); [apply lookup_insert_eq|].
    exists value. split; [|by left].
    rewrite (GetDefaultOutput_eq _ _ _ Hn'). by destruct Hi as [->| ->].
Qed.

Lemma SetDefaultOutput_then_GetDefaultOutput_witness :
  ∃ d, GetDefaultOutput 0 {[ 0 := GraphNode_of_double 0 ]} =
       Ok (d, {[ 0 := GraphNode_of_double 0 ]})
       ∧ (d = (-0)%float
          ∨ (PrimFloat.eqb d (-0) = true
             ∧ ({[ 0 := GraphNode_of_double 0 ]} : gmap nat GraphNode) =
               {[ 0 := GraphNode_of_double 0 ]})).
Proof.
  apply (SetDefaultOutput_then_GetDefaultOutput 1 0 (-0)
           {[ 0 := GraphNode_of_double 0 ]} tt).
  vm_compute. reflexivity.
Defined.

(** ** Cache coherence *)

Lemma ranked_reach rk h x y :
  ranked inputs rk h → rtc (in_edge h) x y → y = x ∨ rk y < rk x.
Proof.
  intros Hrk. induction 1 as [|x z y (n & Hn & Hz) _ IH]; [by left|].
  right. destruct (Hrk x n z Hn Hz) as [_ Hlt]. destruct IH as [->|?]; lia.
Qed.

Lemma operator_reads_inputs f ins p : p ∈ operator_reads f ins → p ∈ ins.
Proof.
  destruct f; simpl; try done.
  - destruct (length ins <=? 0); [by intros ?%elem_of_nil|].
    apply subseteq_take.
  - destruct (length ins <=? 1); [by intros ?%elem_of_nil|].
    apply subseteq_take.
Qed.

Lemma node_reads_inputs n p : p ∈ node_reads n → p ∈ inputs n.
Proof.
  unfold node_reads. destruct (function_pointer n); [|by intros ?%elem_of_nil].
  apply operator_reads_inputs.
Qed.

Lemma cached_node_reads n n' : cached n n' → node_reads n' = node_reads n.
Proof. by intros [->|[_ [w ->]]]. Qed.

Lemma cached_node_value math n n' vals :
  cached n n' → node_value math n' vals = node_value math n vals.
Proof. by intros [->|[_ [w ->]]]. Qed.

Lemma cache_holds_cache_le h h' p v :
  cache_le h h' → cache_holds h p v → cache_holds h' p v.
Proof.
  intros Hle (m & Hm & Hv & Hc). exists m. split; [|done].
  by eapply cache_le_valid.
Qed.

Lemma GetOutput_cache_holds math fuel p h v h' :
  GetOutput math fuel p h = Ok (v, h') → cache_holds h' p v.
Proof. intros (_ & n' & ?)%GetOutput_cache_le. by exists n'. Qed.

Lemma GetOutput_coherent math rk fuel this h v h' :
  ranked inputs rk h → coherent math h →
  GetOutput math fuel this h = Ok (v, h') → coherent math h'.
Proof.
  revert this h v h'. induction fuel as [|fuel IH];
    intros this h v h' Hrk Hcoh Hrun; [done|].
  destruct (h !! this) as [n|] eqn:Hn;
    [|simpl in Hrun; unfold bind, deref in Hrun; by rewrite Hn in Hrun].
  destruct (cached_output_valid n) eqn:Hvalid.
  { simpl in Hrun. rewrite (bind_deref _ _ _ _ Hn) in Hrun. cbv beta in Hrun.
    rewrite Hvalid in Hrun. by inv_run. }
  rewrite (GetOutput_miss _ _ _ _ _ Hn Hvalid) in Hrun.
  apply bind_Ok in Hrun as (vals & h0 & Hreads & Hrun).
  pose (R := λ h1 h2 : heap,
          cache_le h1 h2
          ∧ (ranked inputs rk h1 → coherent math h1 → coherent math h2)
          ∧ (ranked inputs rk h1 → ∀ y, rk this ≤ rk y → h2 !! y = h1 !! y)).
  assert (∀ h1 h2, cache_le h1 h2 → ranked inputs rk h1 → ranked inputs rk h2)
    as Hrk_le.
  { intros h1 h2 Hle Hr.
    eapply (ranked_Forall2 cached); [apply cached_inputs | exact Hle | done]. }
  assert (PreOrder R) as HR.
  { split.
    - intros h1. split_and!; [reflexivity | done | done].
    - intros h1 h2 h3 (Hle12 & Hc12 & Hf12) (Hle23 & Hc23 & Hf23).
      split_and!; [by etransitivity | by eauto |].
      intros Hrk1 y Hy. rewrite Hf23, Hf12; eauto. }
  assert (∀ p, p ∈ node_reads n → rk p < rk this) as Hlt.
  { intros p Hp%node_reads_inputs. by destruct (Hrk this n p Hn Hp). }
  assert (∀ z hz hz' w, z ∈ node_reads n → R h hz →
            GetOutput math fuel z hz = Ok (w, hz') → R hz hz') as Hpres.
  { intros z hz hz' w Hz _ Hz_run. split_and!.
    - by apply GetOutput_cache_le in Hz_run as [? _].
    - intros Hrkz Hcohz. by eapply IH.
    - intros Hrkz y Hy. eapply GetOutput_frame; [done|].
      intros Hreach.
      destruct (ranked_reach rk hz z y Hrkz Hreach) as [->|Hlty];
        specialize (Hlt z Hz); lia. }
  destruct (std_transform_preserves R _ _ _ _ _ Hpres Hreads)
    as (Hle & Hcoh0 & Hframe).
  specialize (Hcoh0 Hrk Hcoh).
  assert (h0 !! this = Some n) as Hn0 by (rewrite Hframe; done).
  rewrite (bind_deref _ _ _ _ Hn0) in Hrun. cbv beta in Hrun. inv_run.
  assert (∀ p w, cache_holds h0 p w →
            cache_holds (<[this := set_cache (node_value math n vals) n]> h0) p w)
    as Hkeep.
  { intros p w (m & Hm & Hv & Hc). exists m. split; [|done].
    rewrite lookup_insert_ne; [done|]. intros <-. congruence. }
  intros y ny Hy Hvy. rewrite lookup_insert in Hy. case_decide; simplify_eq.
  - exists vals. split; [|done].
    change (node_reads (set_cache (node_value math n vals) n))
      with (node_reads n).
    apply Forall2_same_length_lookup_2;
      [symmetry; by eapply std_transform_length|].
    intros j p w Hj Hw.
    destruct (std_transform_lookup R _ _ _ _ _ Hpres Hreads j p Hj)
      as (w' & hz & hz' & Hw' & Hz & (Hlez & _)).
    simplify_eq. apply Hkeep. eapply cache_holds_cache_le; [done|].
    by eapply GetOutput_cache_holds.
  - destruct (Hcoh0 y ny Hy Hvy) as (vs & Hall & Hval).
    exists vs. split; [|done]. eapply Forall2_impl; [done|]. apply Hkeep.
Qed.

Lemma write_fields_out_edge_mono this m h u hm a b :
  write_fields this m h = Ok (u, hm) → out_edge h a b → out_edge hm a b.
Proof.
  intros Hw (na & Hna & Hb). unfold out_edge.
  destruct m as [f|node|nodes|nodes|v]; simpl in Hw; unfold AddOutput in Hw;
    inv_run.
  2: { match goal with
       | H : <[this := _]> h !! node = Some _ |- _ =>
           rewrite lookup_insert in H
       end.
       rewrite !lookup_insert.
       repeat case_decide; simplify_eq; eexists; (split; [done|]); simpl;
         try done; apply elem_of_app; by left. }
  all: rewrite lookup_insert; case_decide; simplify_eq; eauto.
Qed.

Lemma written_node_reads this a na na' :
  written this a na na' → a ≠ this →
  node_reads na' = node_reads na
  ∧ cached_output_valid na' = cached_output_valid na
  ∧ cached_output na' = cached_output na
  ∧ ∀ math vals, node_value math na' vals = node_value math na vals.
Proof.
  intros (Hin & _ & Hsame) Hne. specialize (Hin Hne). specialize (Hsame Hne).
  unfold set_outputs in Hsame. injection Hsame as _ Hf Hd Hc Hv.
  unfold node_reads, node_value. by rewrite Hin, Hf, Hd.
Qed.

Lemma mutate_coherent math fuel this m h u h' :
  registered h → coherent math h →
  mutate fuel this m h = Ok (u, h') → coherent math h'.
Proof.
  intros Hreg Hcoh Hrun.
  destruct (mutate_same_or_written _ _ _ _ _ _ Hrun) as [->|Hch]; [done|].
  rewrite mutate_write_fields in Hrun by done.
  apply bind_Ok in Hrun as (? & hm & Hw & Hrun).
  pose proof (RecursiveInvalidateCache_inval_le _ _ _ _ _ Hrun) as Hle.
  (* a node that is still valid was not reached by the invalidation *)
  assert (∀ y ny, h' !! y = Some ny → cached_output_valid ny = true →
            ¬ rtc (out_edge hm) this y) as Hunreached.
  { intros y ny Hy Hv Hreach.
    destruct (RecursiveInvalidateCache_reach _ _ _ _ _ _ Hrun Hreach)
      as (ny' & Hy' & Hinv). congruence. }
  (* such a node is, apart from its outputs, as it was before the mutation *)
  assert (∀ y ny, h' !! y = Some ny → cached_output_valid ny = true →
            ∃ n0, h !! y = Some n0 ∧ y ≠ this ∧ written this y n0 ny) as Hold.
  { intros y ny Hy Hv.
    pose proof (Hunreached y ny Hy Hv) as Hno.
    rewrite (RecursiveInvalidateCache_frame _ _ _ _ _ _ Hrun Hno) in Hy.
    pose proof (write_fields_lookup _ _ _ _ _ y Hw) as Hl. rewrite Hy in Hl.
    inversion Hl as [n0 ny0 Hwr Hn0|]. exists n0. split_and!; [done | | done].
    intros ->. apply Hno. reflexivity. }
  intros y ny Hy Hv.
  destruct (Hold y ny Hy Hv) as (n0 & Hn0 & Hne & Hwr).
  destruct (written_node_reads _ _ _ _ Hwr Hne) as (Hreads & Hv0 & Hc0 & Hval).
  destruct (Hcoh y n0 Hn0) as (vals & Hall & Hcached); [congruence|].
  exists vals. split; [|by rewrite Hval, Hc0].
  rewrite Hreads. apply Forall2_same_length_lookup_2;
    [by eapply Forall2_length|].
  intros j p w Hj Hw'.
  pose proof (Forall2_lookup_lr _ _ _ _ _ _ Hall Hj Hw') as (mp & Hmp & Hvp & Hcp).
  (* an input read by a valid node is not reached either: it has a back edge *)
  assert (¬ rtc (out_edge hm) this p) as Hnop.
  { intros Hreach. apply (Hunreached y ny Hy Hv).
    eapply rtc_r; [done|]. eapply write_fields_out_edge_mono; [done|].
    apply Hreg. exists n0. split; [done|].
    apply node_reads_inputs. by eapply list_elem_of_lookup_2. }
  assert (p ≠ this) as Hpne by (intros ->; apply Hnop; reflexivity).
  pose proof (write_fields_lookup _ _ _ _ _ p Hw) as Hl. rewrite Hmp in Hl.
  inversion Hl as [mp0 mp' Hwrp Hmp0 Hmp'|].
  destruct (written_node_reads _ _ _ _ Hwrp Hpne) as (_ & Hvp' & Hcp' & _).
  exists mp'. split_and!; [|congruence..].
  by rewrite (RecursiveInvalidateCache_frame _ _ _ _ _ _ Hrun Hnop).
Qed.

Lemma out_edge_cache_le h h' a b :
  cache_le h h' → out_edge h a b ↔ out_edge h' a b.
Proof.
  intros H. split; intros (n & Hn & Hb).
  - destruct (cache_le_lookup _ _ _ _ H Hn) as (n' & Hn' & Hc).
    exists n'. split; [done|]. by destruct Hc as [->|[_ [w ->]]].
  - pose proof (H a) as Ha. rewrite Hn in Ha. inversion Ha as [n0 n1 Hc Hn0|].
    exists n0. split; [done|]. by destruct Hc as [->|[_ [w ->]]].
Qed.

Lemma write_fields_this_inputs this m h u hm n :
  write_fields this m h = Ok (u, hm) → h !! this = Some n →
  ∃ n', hm !! this = Some n'
        ∧ inputs n' = match m with
                      | MAddInput node => inputs n ++ [node]
                      | MAddInputs nodes => inputs n ++ nodes
                      | MSetInputs nodes => nodes
                      | _ => inputs n
                      end
        ∧ ∀ node, m = MAddInput node → out_edge hm node this.
Proof.
  intros Hw Hn.
  destruct m as [f|node|nodes|nodes|v]; simpl in Hw; unfold AddOutput in Hw;
    inv_run.
  2: { match goal with
       | H : <[this := _]> h !! node = Some _ |- _ => rename H into Hnode
       end.
       destruct (decide (node = this)) as [->|Hne].
       - rewrite lookup_insert_eq in Hnode. simplify_eq.
         rewrite lookup_insert_eq. eexists. split_and!; [done | done |].
         intros ? [= <-]. eexists. split; [apply lookup_insert_eq|]. simpl.
         apply elem_of_app. right. by apply list_elem_of_singleton.
       - rewrite lookup_insert_ne, lookup_insert_eq by done.
         eexists. split_and!; [done | done |].
         intros ? [= <-]. eexists. split; [apply lookup_insert_eq|]. simpl.
         apply elem_of_app. right. by apply list_elem_of_singleton. }
  all: rewrite lookup_insert_eq; eexists; split_and!; [done | done | done].
Qed.

Lemma write_fields_registered this m h u hm :
  match m with
  | MAddInputs (_ :: _) | MSetInputs (_ :: _) => False
  | _ => True
  end →
  registered h → write_fields this m h = Ok (u, hm) → registered hm.
Proof.
  intros Hd Hreg Hw a b (nb & Hnb & Ha).
  pose proof (write_fields_lookup _ _ _ _ _ b Hw) as Hl. rewrite Hnb in Hl.
  inversion Hl as [nb0 nb1 (Hin & _) Hnb0|]. symmetry in Hnb0.
  destruct (decide (b = this)) as [->|Hne].
  - destruct (write_fields_this_inputs _ _ _ _ _ _ Hw Hnb0)
      as (n' & Hn' & Hin' & Hadd). simplify_eq.
    destruct m as [f|node|[|? ?]|[|? ?]|v]; try done; rewrite Hin' in Ha.
    + eapply write_fields_out_edge_mono; [done|]. apply Hreg. by exists nb0.
    + apply elem_of_app in Ha as [Ha|Ha%list_elem_of_singleton].
      * eapply write_fields_out_edge_mono; [done|]. apply Hreg. by exists nb0.
      * subst. by apply Hadd.
    + rewrite app_nil_r in Ha.
      eapply write_fields_out_edge_mono; [done|]. apply Hreg. by exists nb0.
    + by apply elem_of_nil in Ha.
    + eapply write_fields_out_edge_mono; [done|]. apply Hreg. by exists nb0.
  - eapply write_fields_out_edge_mono; [done|]. apply Hreg. exists nb0.
    split; [done|]. by rewrite <- (Hin Hne).
Qed.

Lemma registered_inval_le h h' : inval_le h h' → registered h → registered h'.
Proof.
  intros Hle Hreg a b Hin. apply (out_edge_inval_le _ _ _ _ Hle), Hreg.
  by apply (in_edge_inval_le _ _ _ _ Hle).
Qed.

Lemma registered_cache_le h h' : cache_le h h' → registered h → registered h'.
Proof.
  intros Hle Hreg a b Hin. apply (out_edge_cache_le _ _ _ _ Hle), Hreg.
  by apply (in_edge_cache_le _ _ _ _ Hle).
Qed.

Lemma make_shared_lookup n h p h' :
  make_shared n h = Ok (p, h') →
  h !! p = None ∧ h' = <[p := n]> h.
Proof.
  intros [= <- <-]. split; [|done].
  apply not_elem_of_dom, is_fresh.
Qed.

Lemma make_shared_registered n h p h' :
  inputs n = [] → registered h → make_shared n h = Ok (p, h') → registered h'.
Proof.
  intros Hin Hreg [Hp ->]%make_shared_lookup a b (nb & Hnb & Ha).
  rewrite lookup_insert in Hnb. case_decide; simplify_eq.
  { rewrite Hin in Ha. by apply elem_of_nil in Ha. }
  destruct (Hreg a b) as (na & Hna & Hb); [by exists nb|].
  exists na. split; [|done]. rewrite lookup_insert_ne; [done|]. congruence.
Qed.

Lemma make_shared_coherent math n h p h' :
  cached_output_valid n = false → coherent math h →
  make_shared n h = Ok (p, h') → coherent math h'.
Proof.
  intros Hinv Hcoh [Hp ->]%make_shared_lookup y ny Hy Hv.
  rewrite lookup_insert in Hy. case_decide; simplify_eq; [congruence|].
  destruct (Hcoh y ny Hy Hv) as (vals & Hall & Hval).
  exists vals. split; [|done]. eapply Forall2_impl; [done|].
  intros q w (m & Hm & ?). exists m. split; [|done].
  rewrite lookup_insert_ne; [done|]. congruence.
Qed.

Lemma well_wired_registered_coherent math h :
  well_wired math h → registered h ∧ coherent math h.
Proof.
  induction 1 as [|h c u h' _ [Hreg Hcoh] Hd [rk Hrk] Hrun].
  { split; [by intros a b (n & Hn & _) | by intros x n Hn]. }
  destruct c as [|v|f|fuel this m|math' fuel this]; simpl in Hrun, Hd.
  - apply bind_Ok in Hrun as (p & h1 & Hnew & Hret). inv_run. split.
    + eapply make_shared_registered; [| |eassumption]; done.
    + eapply make_shared_coherent; [| |eassumption]; done.
  - apply bind_Ok in Hrun as (p & h1 & Hnew & Hret). inv_run. split.
    + eapply make_shared_registered; [| |eassumption]; done.
    + eapply make_shared_coherent; [| |eassumption]; done.
  - apply bind_Ok in Hrun as (p & h1 & Hnew & Hret). inv_run. split.
    + eapply make_shared_registered; [| |eassumption]; done.
    + eapply make_shared_coherent; [| |eassumption]; done.
  - split; [|by eapply mutate_coherent].
    destruct (mutate_same_or_written _ _ _ _ _ _ Hrun) as [->|Hch]; [done|].
    rewrite mutate_write_fields in Hrun by done.
    apply bind_Ok in Hrun as (? & hm & Hw & Hrun).
    eapply registered_inval_le;
      [by eapply RecursiveInvalidateCache_inval_le|].
    by eapply write_fields_registered.
  - subst math'. apply bind_Ok in Hrun as (v & h1 & Hrun & Hret). inv_run.
    split.
    + eapply registered_cache_le; [|done].
      by apply GetOutput_cache_le in Hrun as [? _].
    + by eapply GetOutput_coherent.
Qed.

(** ** Memoization is transparent *)

Lemma pure_output_S math fuel h x :
  pure_output math (S fuel) h x =
  match h !! x with
  | None => None
  | Some n =>
      match mapM (pure_output math fuel h) (node_reads n) with
      | None => None
      | Some vals => Some (node_value math n vals)
      end
  end.
Proof. done. Qed.

Lemma pure_output_mono math fuel fuel' h x v :
  pure_output math fuel h x = Some v → fuel ≤ fuel' →
  pure_output math fuel' h x = Some v.
Proof.
  revert fuel' x v. induction fuel as [|fuel IH]; intros fuel' x v Hv Hle;
    [done|]. destruct fuel' as [|fuel']; [lia|].
  rewrite pure_output_S in *.
  destruct (h !! x) as [n|]; [|done].
  destruct (mapM (pure_output math fuel h) (node_reads n)) as [vals|] eqn:Hm;
    [|done].
  apply mapM_Some in Hm.
  rewrite (mapM_Some_2 (pure_output math fuel' h) (node_reads n) vals); [done|].
  eapply Forall2_impl; [done|]. intros p w Hp. apply IH; [done | lia].
Qed.

Lemma pure_output_cache_le math fuel h h' x :
  cache_le h h' → pure_output math fuel h' x = pure_output math fuel h x.
Proof.
  intros Hle. revert x. induction fuel as [|fuel IH]; intros x; [done|].
  rewrite !pure_output_S.
  destruct (Hle x) as [n n' Hc|]; [|done].
  rewrite (cached_node_reads _ _ Hc), (mapM_ext _ _ _ IH).
  destruct (mapM _ _); [|done]. by rewrite (cached_node_value _ _ _ _ Hc).
Qed.

Lemma coherent_pure_output math rk h k x n :
  coherent math h → ranked inputs rk h →
  rk x ≤ k → h !! x = Some n → cached_output_valid n = true →
  pure_output math (S k) h x = Some (cached_output n).
Proof.
  intros Hcoh Hrk. revert x n. induction k as [|k IH]; intros x n Hle Hn Hv;
    rewrite pure_output_S, Hn;
    destruct (Hcoh x n Hn Hv) as (vals & Hall & ->).
  - destruct (node_reads n) as [|p ps] eqn:Hreads.
    + by apply Forall2_nil_inv_l in Hall as ->.
    + assert (p ∈ inputs n) as Hp by (apply node_reads_inputs; rewrite Hreads; left).
      destruct (Hrk x n p Hn Hp). lia.
  - rewrite (mapM_Some_2 (pure_output math (S k) h) (node_reads n) vals); [done|].
    apply Forall2_same_length_lookup_2; [by eapply Forall2_length|].
    intros j p w Hj Hw.
    pose proof (Forall2_lookup_lr _ _ _ _ _ _ Hall Hj Hw) as (m & Hm & Hvm & <-).
    apply IH; [|done..].
    assert (p ∈ inputs n) as Hp
      by (apply node_reads_inputs; by eapply list_elem_of_lookup_2).
    destruct (Hrk x n p Hn Hp). lia.
Qed.

Lemma GetOutput_pure_output math rk fuel this h v h' :
  coherent math h → ranked inputs rk h →
  GetOutput math fuel this h = Ok (v, h') →
  pure_output math (S (rk this)) h this = Some v.
Proof.
  revert this h v h'. induction fuel as [|fuel IH];
    intros this h v h' Hcoh Hrk Hrun; [done|].
  destruct (h !! this) as [n|] eqn:Hn;
    [|simpl in Hrun; unfold bind, deref in Hrun; by rewrite Hn in Hrun].
  destruct (cached_output_valid n) eqn:Hvalid.
  { simpl in Hrun. rewrite (bind_deref _ _ _ _ Hn) in Hrun. cbv beta in Hrun.
    rewrite Hvalid in Hrun. inv_run. by eapply coherent_pure_output. }
  rewrite (GetOutput_miss _ _ _ _ _ Hn Hvalid) in Hrun.
  apply bind_Ok in Hrun as (vals & h0 & Hreads & Hrun). inv_run.
  pose (R := λ h1 h2 : heap,
          cache_le h1 h2
          ∧ (ranked inputs rk h1 → coherent math h1 → coherent math h2)).
  assert (∀ h1 h2, cache_le h1 h2 → ranked inputs rk h1 → ranked inputs rk h2)
    as Hrk_le.
  { intros h1 h2 Hle Hr.
    eapply (ranked_Forall2 cached); [apply cached_inputs | exact Hle | done]. }
  assert (PreOrder R) as HR.
  { split.
    - intros h1. split; [reflexivity | done].
    - intros h1 h2 h3 (Hle12 & Hc12) (Hle23 & Hc23).
      split; [by etransitivity | by eauto]. }
  assert (∀ z hz hz' w, z ∈ node_reads n → R h hz →
            GetOutput math fuel z hz = Ok (w, hz') → R hz hz') as Hpres.
  { intros z hz hz' w _ _ Hz. split.
    - by apply GetOutput_cache_le in Hz as [? _].
    - intros Hrkz Hcohz. by eapply GetOutput_coherent. }
  rewrite pure_output_S, Hn.
  rewrite (mapM_Some_2 (pure_output math (rk this) h) (node_reads n) vals);
    [done|].
  apply Forall2_same_length_lookup_2;
    [symmetry; by eapply std_transform_length|].
  intros j p w Hj Hw.
  destruct (std_transform_elem R _ _ _ _ _ Hpres Hreads j p Hj)
    as (w' & hz & hz' & Hw' & (Hlez & Hcz) & Hz & _).
  simplify_eq.
  assert (p ∈ inputs n) as Hp
    by (apply node_reads_inputs; by eapply list_elem_of_lookup_2).
  destruct (Hrk this n p Hn Hp) as [_ Hlt].
  apply (pure_output_mono math (S (rk p))); [|lia].
  rewrite <- (pure_output_cache_le math _ h hz p Hlez).
  eapply IH; [by apply Hcz | by eapply Hrk_le | done].
Qed.

Lemma well_wired_run math rk cs h h' :
  well_wired math h → Forall (disciplined math) cs →
  wired_run rk cs h = Some h' → well_wired math h'.
Proof.
  revert h. induction cs as [|c cs IH]; intros h Hh Hcs Hrun; simpl in Hrun;
    [by simplify_eq|].
  apply Forall_cons in Hcs as [Hc Hcs].
  destruct (rankedb inputs rk h) eqn:Hrk; [|done].
  destruct (run_call c h) as [[u h1]| |] eqn:Hcall; [|done..].
  apply (IH h1); [|done..].
  eapply wired_call; [done | done | | done].
  exists rk. by apply rankedb_sound.
Qed.

Lemma heap_ABC_well_wired : well_wired libm_identity heap_ABC.
Proof.
  apply (well_wired_run libm_identity rank_ABC calls_ABC ∅);
    [apply wired_empty | | vm_compute; reflexivity].
  unfold calls_ABC. repeat constructor.
Qed.

Lemma heap_ABC_changed_well_wired : well_wired libm_identity heap_ABC_changed.
Proof.
  apply (well_wired_run libm_identity rank_ABC
           (calls_ABC ++ [CMutate 2 0 (MSetDefaultOutput 10)]) ∅);
    [apply wired_empty | | vm_compute; reflexivity].
  unfold calls_ABC. repeat constructor.
Qed.

(** X13: on a closed acyclic input graph with coherent caches,
    [GetOutput] leaves the caches coherent: every valid cache, the new
    ones included, holds the value of its operator on the cached values
    of the inputs it reads, and those are valid. *)
Theorem evaluation_keeps_caches_coherent math rk fuel this h v h'
    (Hrk : ranked inputs rk h)
    (Hcoh : coherent math h)
    (Hrun : GetOutput math fuel this h = Ok (v, h')) :
  coherent math h' ∧ cache_holds h' this v ∧ ranked inputs rk h'.
Proof.
  split_and!.
  - by eapply GetOutput_coherent.
  - by eapply GetOutput_cache_holds.
  - apply GetOutput_cache_le in Hrun as [Hle _].
    eapply (ranked_Forall2 cached); [apply cached_inputs | exact Hle | done].
Qed.

Lemma evaluation_keeps_caches_coherent_witness :
  coherent libm_identity (heap_after (GetOutput libm_identity 2 2) heap_ABC_changed)
  ∧ cache_holds (heap_after (GetOutput libm_identity 2 2) heap_ABC_changed) 2 15
  ∧ ranked inputs rank_ABC
      (heap_after (GetOutput libm_identity 2 2) heap_ABC_changed).
Proof.
  apply (evaluation_keeps_caches_coherent libm_identity rank_ABC 2 2
           heap_ABC_changed).
  - apply rankedb_sound. vm_compute. reflexivity.
  - exact (proj2 (well_wired_registered_coherent _ _
                    heap_ABC_changed_well_wired)).
  - vm_compute. reflexivity.
Defined.

(** X14: when every input edge has its back edge, a mutation leaves the
    caches coherent: whatever the mutation made stale has been
    invalidated. *)
Theorem mutation_keeps_caches_coherent math fuel this m h u h'
    (Hreg : registered h)
    (Hcoh : coherent math h)
    (Hrun : mutate fuel this m h = Ok (u, h')) :
  coherent math h'.
Proof. by eapply mutate_coherent. Qed.

Lemma mutation_keeps_caches_coherent_witness :
  coherent libm_identity heap_ABC_changed.
Proof.
  apply (mutation_keeps_caches_coherent libm_identity 2 0
           (MSetDefaultOutput 10) heap_ABC tt).
  - exact (proj1 (well_wired_registered_coherent _ _ heap_ABC_well_wired)).
  - exact (proj2 (well_wired_registered_coherent _ _ heap_ABC_well_wired)).
  - vm_compute. reflexivity.
Defined.

(** X15: in every heap built by a program that allocates nodes, wires
    them with [AddInput], sets operators and defaults and evaluates, on an
    input graph it keeps closed and acyclic, every input edge has its back
    edge and the caches are coherent. *)
Theorem well_wired_heaps_are_coherent math h
    (Hh : well_wired math h) :
  registered h ∧ coherent math h ∧ constant_cache_ok h.
Proof.
  destruct (well_wired_registered_coherent math h Hh) as [Hreg Hcoh].
  split_and!; [done | done |].
  intros p n Hn Hv Hf. destruct (Hcoh p n Hn Hv) as (vals & _ & ->).
  unfold node_value. by rewrite Hf.
Qed.

Lemma well_wired_heaps_are_coherent_witness :
  registered heap_ABC ∧ coherent libm_identity heap_ABC
  ∧ constant_cache_ok heap_ABC.
Proof.
  apply well_wired_heaps_are_coherent, heap_ABC_well_wired.
Defined.

(** X16: memoization is transparent.  On a closed acyclic input graph
    with coherent caches, the value [GetOutput] returns is the value that
    evaluation without any cache gives: the operator of the node applied
    to the values, computed in the same way, of the inputs it reads. *)
Theorem GetOutput_agrees_with_uncached_evaluation math rk fuel this h v h'
    (Hcoh : coherent math h)
    (Hrk : ranked inputs rk h)
    (Hrun : GetOutput math fuel this h = Ok (v, h')) :
  pure_output math (S (rk this)) h this = Some v
  ∧ ∀ fuel', rk this < fuel' → pure_output math fuel' h' this = Some v.
Proof.
  pose proof (GetOutput_pure_output _ _ _ _ _ _ _ Hcoh Hrk Hrun) as Hpure.
  split; [done|]. intros fuel' Hlt.
  apply GetOutput_cache_le in Hrun as [Hle _].
  rewrite (pure_output_cache_le _ _ _ _ _ Hle).
  eapply pure_output_mono; [done | lia].
Qed.

Lemma GetOutput_agrees_with_uncached_evaluation_witness :
  pure_output libm_identity 2 heap_ABC_changed 2 = Some 15%float
  ∧ ∀ fuel', rank_ABC 2 < fuel' →
       pure_output libm_identity fuel'
         (heap_after (GetOutput libm_identity 2 2) heap_ABC_changed) 2 =
       Some 15%float.
Proof.
  apply (GetOutput_agrees_with_uncached_evaluation libm_identity rank_ABC 2 2
           heap_ABC_changed).
  - exact (proj2 (well_wired_registered_coherent _ _
                    heap_ABC_changed_well_wired)).
  - apply rankedb_sound. vm_compute. reflexivity.
  - vm_compute. reflexivity.
Defined.

Lemma RecursiveInvalidateCache_noop fuel this h u h' :
  (∀ y n, rtc (out_edge h) this y → h !! y = Some n →
          cached_output_valid n = false) →
  RecursiveInvalidateCache fuel this h = Ok (u, h') → h' = h.
Proof.
  revert this h u h'. induction fuel as [|fuel IH]; intros this h u h' Hinv Hrun;
    simpl in Hrun; inv_run.
  assert (<[this := set_cached_output_valid false n]> h = h) as Hsame.
  { apply insert_id. rewrite Hn. f_equal.
    pose proof (Hinv this n ltac:(reflexivity) Hn) as Hv.
    destruct n; simpl in *; by subst. }
  rewrite Hsame in Hrun.
  assert (PreOrder (λ h1 h2 : heap, h2 = h1)) as HR.
  { split; [by intros ? | by intros ??? -> ->]. }
  apply (for_each_preserves (λ h1 h2 : heap, h2 = h1) _ _ _ _ _) in Hrun;
    [done|].
  intros z hz hz' w Hz -> Hz_run. eapply IH; [|done].
  intros y m Hy Hm. apply (Hinv y m); [|done].
  eapply rtc_l; [|done]. by exists n.
Qed.

(** X17: invalidating again changes nothing: a second
    [RecursiveInvalidateCache] on the same node, when it returns, leaves
    the heap of the first one. *)
Theorem RecursiveInvalidateCache_idempotent fuel fuel' this h u h' u' h''
    (Hrun : RecursiveInvalidateCache fuel this h = Ok (u, h'))
    (Hrun' : RecursiveInvalidateCache fuel' this h' = Ok (u', h'')) :
  h'' = h'.
Proof.
  eapply RecursiveInvalidateCache_noop; [|done].
  intros y n Hy Hn.
  pose proof (RecursiveInvalidateCache_inval_le _ _ _ _ _ Hrun) as Hle.
  apply (rtc_out_edge_inval_le _ _ _ _ Hle) in Hy.
  destruct (RecursiveInvalidateCache_reach _ _ _ _ _ _ Hrun Hy)
    as (n' & Hn' & Hv). congruence.
Qed.

Lemma RecursiveInvalidateCache_idempotent_witness :
  heap_after (RecursiveInvalidateCache 2 0)
    (heap_after (RecursiveInvalidateCache 2 0) heap_ABC) =
  heap_after (RecursiveInvalidateCache 2 0) heap_ABC.
Proof.
  apply (RecursiveInvalidateCache_idempotent 2 2 0 heap_ABC tt _ tt);
    vm_compute; reflexivity.
Defined.
